(** * Visitor-Pattern: a shallow embedding of [main.cpp]

    The program has three element classes ([SingleElement], [ArrayElement],
    [StringElement]), three visitor classes ([SumVisitor], [MultiplyVisitor],
    [XORVisitor]) and a driver, [main].  Objects are records, member
    functions are computations in a state-and-exception monad whose state
    is the object they may write to, and the two abstract classes are type
    classes with one instance per concrete class.

    C++ [double] is IEEE 754 binary64; it is modelled by [spec_float] with
    precision 53 and maximal exponent 1024, with the round-to-nearest-even
    operations of [SpecFloat].  [unsigned char] is a [Z] reduced modulo 256
    at every store, [int] is a [Z] between [INT_MIN] and [INT_MAX]. *)

From Stdlib Require Import ZArith List String Ascii Bool Lia QArith Qabs.
From Stdlib Require Import SpecFloat.
Import ListNotations.
Local Open Scope Z_scope.

(** ** Scalar types *)

Definition double : Type := spec_float.

Definition prec : Z := 53.
Definition emax : Z := 1024.

(** [a + b] and [a * b] on [double]. *)
Definition dadd : double -> double -> double := SFadd prec emax.
Definition dmul : double -> double -> double := SFmul prec emax.

(** A [double] is well formed when its mantissa and exponent are those of
    a binary64 number. *)
Definition dvalid (x : double) : Prop := valid_binary prec emax x = true.

Definition is_finite (x : double) : bool :=
  match x with
  | S754_zero _ | S754_finite _ _ _ => true
  | S754_infinity _ | S754_nan => false
  end.

Definition INT_MIN : Z := -2147483648.
Definition INT_MAX : Z := 2147483647.

Definition in_int_range (z : Z) : bool := (INT_MIN <=? z) && (z <=? INT_MAX).

(** Integral conversion [int -> double] (exact for every [int]); also the
    value of the literals [0.0], [1.0], ..., [9.0]. *)
Definition double_of_int (v : Z) : double := binary_normalize prec emax v 0 false.

(** The integral part of a finite [double]: the fractional bits of the
    magnitude are discarded ([Z.shiftl] by a negative amount shifts right). *)
Definition integral_part (x : double) : option Z :=
  match x with
  | S754_zero _ => Some 0
  | S754_finite s m e => Some (cond_Zopp s (Z.shiftl (Zpos m) e))
  | S754_infinity _ | S754_nan => None
  end.

(** Floating-integral conversion [double -> int], as in [int v = d;]: the
    fractional part is discarded, and the behaviour is undefined ([None])
    when the result does not fit in an [int]. *)
Definition int_of_double (x : double) : option Z :=
  match integral_part x with
  | Some z => if in_int_range z then Some z else None
  | None => None
  end.

(** [unsigned char]: conversion of an integer value. *)
Definition to_uchar (z : Z) : Z := z mod 256.

(** The code of a [char] seen as [unsigned char]. *)
Definition uchar_of_char (c : ascii) : Z := Z.of_N (N_of_ascii c).

(** [std::isdigit] in the "C" locale. *)
Definition isdigit (ch : Z) : bool := (48 <=? ch) && (ch <=? 57).

(** ** Exact values, for stating what the conversions compute *)

(** The rational number a finite [double] denotes. *)
Definition exact_value (x : double) : Q :=
  match x with
  | S754_finite s m (Zneg k) => Qmake (cond_Zopp s (Zpos m)) (2 ^ k)%positive
  | S754_finite s m e => inject_Z (cond_Zopp s (Zpos m * 2 ^ e))
  | _ => 0%Q
  end.

(** The binary64 number of sign [s] and magnitude [n], for [n] below
    [2^53]: the mantissa is [n] shifted to 53 bits. *)
Definition canonical (s : bool) (n : positive) : double :=
  let j := 53 - Zpos (digits2_pos n) in
  S754_finite s (Pos.shiftl n (Z.to_N j)) (- j).

(** Truncation of a rational toward zero. *)
Definition truncate (q : Q) : Z := Z.quot (Qnum q) (Zpos (Qden q)).

(** ** Computations: state, exceptions, undefined behaviour *)

Record runtime_error : Type := { what : string }.

Inductive result (S A : Type) : Type :=
| Returns (a : A) (s : S)
| Throws (e : runtime_error) (s : S)
| Undefined.

Arguments Returns {S A} a s.
Arguments Throws {S A} e s.
Arguments Undefined {S A}.

Definition M (S A : Type) : Type := S -> result S A.

Definition ret {S A} (a : A) : M S A := fun s => Returns a s.

Definition bind {S A B} (m : M S A) (k : A -> M S B) : M S B :=
  fun s =>
    match m s with
    | Returns a s' => k a s'
    | Throws e s' => Throws e s'
    | Undefined => Undefined
    end.

Definition throw {S A} (e : runtime_error) : M S A := fun s => Throws e s.

Definition modify {S} (f : S -> S) : M S unit := fun s => Returns tt (f s).

Definition gets {S A} (f : S -> A) : M S A := fun s => Returns (f s) s.

(** A conversion whose behaviour may be undefined. *)
Definition defined {S A} (o : option A) : M S A :=
  fun s => match o with Some a => Returns a s | None => Undefined end.

(** [try { m } catch (const std::runtime_error &e) { h e }] *)
Definition try_catch {S} (m : M S unit) (h : runtime_error -> M S unit) : M S unit :=
  fun s =>
    match m s with
    | Throws e s' => h e s'
    | r => r
    end.

Declare Scope cpp_scope.
Delimit Scope cpp_scope with cpp.
Notation "x <- m ;; k" := (bind m (fun x => k))
  (at level 61, m at next level, right associativity) : cpp_scope.
Notation "m ;; k" := (bind m (fun _ => k))
  (at level 61, right associativity) : cpp_scope.
Local Open Scope cpp_scope.

(** A member function called on the second component of the state with the
    first component passed by reference to const. *)
Definition with_const_ref {E V A} (f : E -> M V A) : M (E * V) A :=
  fun s =>
    match f (fst s) (snd s) with
    | Returns a v => Returns a (fst s, v)
    | Throws e v => Throws e (fst s, v)
    | Undefined => Undefined
    end.

(** [std::accumulate (first, last, init, op)] *)
Definition accumulate {A B} (l : list A) (init : B) (op : B -> A -> B) : B :=
  fold_left op l init.

(** [std::for_each (first, last, f)], [f] taking each element by reference. *)
Fixpoint for_each_from {E S} (f : M (E * S) unit) (l : list E) (s : S)
  : result (list E * S) unit :=
  match l with
  | [] => Returns tt ([], s)
  | e :: rest =>
      match f (e, s) with
      | Returns _ (e', s') =>
          match for_each_from f rest s' with
          | Returns _ (rest', s'') => Returns tt (e' :: rest', s'')
          | Throws x (rest', s'') => Throws x (e' :: rest', s'')
          | Undefined => Undefined
          end
      | Throws x (e', s') => Throws x (e' :: rest, s')
      | Undefined => Undefined
      end
  end.

Definition for_each {E S} (f : M (E * S) unit) : M (list E * S) unit :=
  fun ls => for_each_from f (fst ls) (snd ls).

(** ** Element classes *)

Record SingleElement : Type := { SingleElement_value : double }.
Record ArrayElement : Type := { ArrayElement_value : list double }.
Record StringElement : Type := { StringElement_value : string }.

Definition SingleElement_GetValue (this : SingleElement) : double :=
  SingleElement_value this.
Definition SingleElement_SetValue (value : double) : M SingleElement unit :=
  modify (fun _ => {| SingleElement_value := value |}).

Definition ArrayElement_GetValue (this : ArrayElement) : list double :=
  ArrayElement_value this.
Definition ArrayElement_SetValue (value : list double) : M ArrayElement unit :=
  modify (fun _ => {| ArrayElement_value := value |}).

Definition StringElement_GetValue (this : StringElement) : string :=
  StringElement_value this.
Definition StringElement_SetValue (value : string) : M StringElement unit :=
  modify (fun _ => {| StringElement_value := value |}).

(** ** The visitor interface

    One handler per element class, each taking the element by reference to
    const and acting on the visitor object. *)

Class AbstractVisitor (V : Type) : Type := {
  ProcessSingleElement : SingleElement -> M V unit;
  ProcessArrayElement : ArrayElement -> M V unit;
  ProcessStringElement : StringElement -> M V unit
}.

(** ** The element interface

    [Accept] is a non-const member function of the element taking the
    visitor by reference: its state is the pair of both objects. *)

Class AbstractElement (E : Type) : Type := {
  Accept : forall {V : Type} `{AbstractVisitor V}, M (E * V) unit
}.

Definition SingleElement_Accept {V} `{AbstractVisitor V} : M (SingleElement * V) unit :=
  with_const_ref ProcessSingleElement.

Definition ArrayElement_Accept {V} `{AbstractVisitor V} : M (ArrayElement * V) unit :=
  with_const_ref ProcessArrayElement.

Definition StringElement_Accept {V} `{AbstractVisitor V} : M (StringElement * V) unit :=
  with_const_ref ProcessStringElement.

#[export] Instance SingleElement_is_element : AbstractElement SingleElement :=
  {| Accept := @SingleElement_Accept |}.
#[export] Instance ArrayElement_is_element : AbstractElement ArrayElement :=
  {| Accept := @ArrayElement_Accept |}.
#[export] Instance StringElement_is_element : AbstractElement StringElement :=
  {| Accept := @StringElement_Accept |}.

(** ** SumVisitor *)

Record SumVisitor : Type := { SumVisitor_value : double }.

(** [SumVisitor() : value{0.0}] *)
Definition SumVisitor_new : SumVisitor := {| SumVisitor_value := double_of_int 0 |}.

Definition SumVisitor_ProcessSingleElement (element : SingleElement) : M SumVisitor unit :=
  v <- defined (int_of_double (SingleElement_GetValue element)) ;;
  modify (fun this => {| SumVisitor_value := dadd (SumVisitor_value this) (double_of_int v) |}).

Definition SumVisitor_ProcessArrayElement (element : ArrayElement) : M SumVisitor unit :=
  let v := ArrayElement_GetValue element in
  let sum := accumulate v (double_of_int 0) dadd in
  modify (fun this => {| SumVisitor_value := dadd (SumVisitor_value this) sum |}).

(** The lambda of [SumVisitor::ProcessStringElement]; the [char] argument
    is converted to its [unsigned char] parameter. *)
Definition SumVisitor_lambda (sum : double) (c : ascii) : double :=
  let ch := uchar_of_char c in
  if isdigit ch then dadd sum (double_of_int (ch - 48)) else sum.

Definition SumVisitor_ProcessStringElement (element : StringElement) : M SumVisitor unit :=
  let v := StringElement_GetValue element in
  let sum := accumulate (list_ascii_of_string v) (double_of_int 0) SumVisitor_lambda in
  modify (fun this => {| SumVisitor_value := dadd (SumVisitor_value this) sum |}).

Definition SumVisitor_GetValue (this : SumVisitor) : double := SumVisitor_value this.

Definition SumVisitor_Reset : M SumVisitor unit :=
  modify (fun _ => {| SumVisitor_value := double_of_int 0 |}).

#[export] Instance SumVisitor_is_visitor : AbstractVisitor SumVisitor := {|
  ProcessSingleElement := SumVisitor_ProcessSingleElement;
  ProcessArrayElement := SumVisitor_ProcessArrayElement;
  ProcessStringElement := SumVisitor_ProcessStringElement
|}.

(** ** MultiplyVisitor *)

Record MultiplyVisitor : Type := { MultiplyVisitor_value : double }.

(** [MultiplyVisitor() : value(1.0)] *)
Definition MultiplyVisitor_new : MultiplyVisitor :=
  {| MultiplyVisitor_value := double_of_int 1 |}.

Definition MultiplyVisitor_ProcessSingleElement (element : SingleElement)
  : M MultiplyVisitor unit :=
  v <- defined (int_of_double (SingleElement_GetValue element)) ;;
  modify (fun this =>
    {| MultiplyVisitor_value := dmul (MultiplyVisitor_value this) (double_of_int v) |}).

Definition MultiplyVisitor_lambda (product value : double) : double :=
  dmul product value.

Definition MultiplyVisitor_ProcessArrayElement (element : ArrayElement)
  : M MultiplyVisitor unit :=
  let v := ArrayElement_GetValue element in
  let product := accumulate v (double_of_int 1) MultiplyVisitor_lambda in
  modify (fun this =>
    {| MultiplyVisitor_value := dmul (MultiplyVisitor_value this) product |}).

Definition lambda_multiply (product : double) (c : ascii) : double :=
  let ch := uchar_of_char c in
  if isdigit ch then dmul product (double_of_int (ch - 48)) else product.

Definition MultiplyVisitor_ProcessStringElement (element : StringElement)
  : M MultiplyVisitor unit :=
  let v := StringElement_GetValue element in
  let product := accumulate (list_ascii_of_string v) (double_of_int 1) lambda_multiply in
  modify (fun this =>
    {| MultiplyVisitor_value := dmul (MultiplyVisitor_value this) product |}).

Definition MultiplyVisitor_GetValue (this : MultiplyVisitor) : double :=
  MultiplyVisitor_value this.

Definition MultiplyVisitor_Reset : M MultiplyVisitor unit :=
  modify (fun _ => {| MultiplyVisitor_value := double_of_int 1 |}).

#[export] Instance MultiplyVisitor_is_visitor : AbstractVisitor MultiplyVisitor := {|
  ProcessSingleElement := MultiplyVisitor_ProcessSingleElement;
  ProcessArrayElement := MultiplyVisitor_ProcessArrayElement;
  ProcessStringElement := MultiplyVisitor_ProcessStringElement
|}.

(** ** XORVisitor *)

(** [value] is an [unsigned char]. *)
Record XORVisitor : Type := { XORVisitor_value : Z }.

(** [XORVisitor() : value{0}] *)
Definition XORVisitor_new : XORVisitor := {| XORVisitor_value := 0 |}.

Definition XORVisitor_ProcessSingleElement (element : SingleElement) : M XORVisitor unit :=
  throw {| what := "Error: Cannot apply XOR operation to SingleElement type" |}.

Definition XORVisitor_ProcessArrayElement (element : ArrayElement) : M XORVisitor unit :=
  throw {| what := "Error: Cannot apply XOR operation to ArrayElement type" |}.

(** The lambda of [XORVisitor::ProcessStringElement]: both arguments are
    converted to [unsigned char], the result is an [int]. *)
Definition lambda_xor (checksum : Z) (c : ascii) : Z :=
  Z.lxor (to_uchar checksum) (uchar_of_char c).

Definition XORVisitor_ProcessStringElement (element : StringElement) : M XORVisitor unit :=
  let v := StringElement_GetValue element in
  let checksum := to_uchar (accumulate (list_ascii_of_string v) 0 lambda_xor) in
  modify (fun this => {| XORVisitor_value := to_uchar (Z.lxor (XORVisitor_value this) checksum) |}).

Definition XORVisitor_GetValue (this : XORVisitor) : Z := XORVisitor_value this.

Definition XORVisitor_Reset : M XORVisitor unit :=
  modify (fun _ => {| XORVisitor_value := 0 |}).

#[export] Instance XORVisitor_is_visitor : AbstractVisitor XORVisitor := {|
  ProcessSingleElement := XORVisitor_ProcessSingleElement;
  ProcessArrayElement := XORVisitor_ProcessArrayElement;
  ProcessStringElement := XORVisitor_ProcessStringElement
|}.

(** ** Reference definitions, following the specification's words *)

(** The ASCII digit characters, in increasing value. *)
Definition decimal_digits : list ascii := list_ascii_of_string "0123456789".

(** The place of a character in a list, counted from [i]. *)
Fixpoint position_from (i : Z) (c : ascii) (l : list ascii) : option Z :=
  match l with
  | [] => None
  | d :: rest => if Ascii.eqb c d then Some i else position_from (i + 1) c rest
  end.

(** The decimal value of an ASCII digit character: its place among the
    digits. *)
Definition digit_value (c : ascii) : option Z := position_from 0 c decimal_digits.

(** The digit values of a string, in order; other characters give none. *)
Fixpoint digit_values (s : string) : list Z :=
  match s with
  | EmptyString => []
  | String c rest =>
      match digit_value c with
      | Some d => d :: digit_values rest
      | None => digit_values rest
      end
  end.

(** Sum and product of a sequence of [double]s, accumulated from the left
    in [double] arithmetic. *)
Definition double_sum (l : list double) : double :=
  fold_left dadd l (S754_zero false).

Definition double_product (l : list double) : double :=
  fold_left dmul l (S754_finite false 4503599627370496 (-52)).

(** Sum and product of a sequence of integers. *)
Definition integer_sum (l : list Z) : Z := fold_right Z.add 0 l.
Definition integer_product (l : list Z) : Z := fold_right Z.mul 1 l.

(** The bitwise XOR, seeded from 0, of the character codes of a string. *)
Fixpoint xor_of_codes (s : string) : Z :=
  match s with
  | EmptyString => 0
  | String c rest => Z.lxor (Z.of_nat (nat_of_ascii c)) (xor_of_codes rest)
  end.

(** ** The driver *)

(** What is written to [std::cout]: one item per [<<]. *)
Inductive output : Type :=
| OutString (s : string)
| OutDouble (d : double)
| OutInt (z : Z)
| OutEndl.

(** The objects [main] works on: its local variables and [std::cout]. *)
Record frame : Type := {
  single_element_list : list SingleElement;
  array_element_list : list ArrayElement;
  string_element : StringElement;
  sum_visitor : SumVisitor;
  multiply_visitor : MultiplyVisitor;
  xor_visitor : XORVisitor;
  cout : list output
}.

(** A reference to a part of the frame. *)
Record ref (S : Type) : Type := {
  load : frame -> S;
  store : S -> frame -> frame
}.

Arguments load {S} r.
Arguments store {S} r.

Definition ref_single_element_list : ref (list SingleElement) :=
  {| load := single_element_list;
     store := fun l fr =>
       {| single_element_list := l;
          array_element_list := array_element_list fr;
          string_element := string_element fr;
          sum_visitor := sum_visitor fr;
          multiply_visitor := multiply_visitor fr;
          xor_visitor := xor_visitor fr;
          cout := cout fr |} |}.

Definition ref_array_element_list : ref (list ArrayElement) :=
  {| load := array_element_list;
     store := fun l fr =>
       {| single_element_list := single_element_list fr;
          array_element_list := l;
          string_element := string_element fr;
          sum_visitor := sum_visitor fr;
          multiply_visitor := multiply_visitor fr;
          xor_visitor := xor_visitor fr;
          cout := cout fr |} |}.

Definition ref_string_element : ref StringElement :=
  {| load := string_element;
     store := fun e fr =>
       {| single_element_list := single_element_list fr;
          array_element_list := array_element_list fr;
          string_element := e;
          sum_visitor := sum_visitor fr;
          multiply_visitor := multiply_visitor fr;
          xor_visitor := xor_visitor fr;
          cout := cout fr |} |}.

Definition ref_sum_visitor : ref SumVisitor :=
  {| load := sum_visitor;
     store := fun v fr =>
       {| single_element_list := single_element_list fr;
          array_element_list := array_element_list fr;
          string_element := string_element fr;
          sum_visitor := v;
          multiply_visitor := multiply_visitor fr;
          xor_visitor := xor_visitor fr;
          cout := cout fr |} |}.

Definition ref_multiply_visitor : ref MultiplyVisitor :=
  {| load := multiply_visitor;
     store := fun v fr =>
       {| single_element_list := single_element_list fr;
          array_element_list := array_element_list fr;
          string_element := string_element fr;
          sum_visitor := sum_visitor fr;
          multiply_visitor := v;
          xor_visitor := xor_visitor fr;
          cout := cout fr |} |}.

Definition ref_xor_visitor : ref XORVisitor :=
  {| load := xor_visitor;
     store := fun v fr =>
       {| single_element_list := single_element_list fr;
          array_element_list := array_element_list fr;
          string_element := string_element fr;
          sum_visitor := sum_visitor fr;
          multiply_visitor := multiply_visitor fr;
          xor_visitor := v;
          cout := cout fr |} |}.

Definition ref_cout : ref (list output) :=
  {| load := cout;
     store := fun o fr =>
       {| single_element_list := single_element_list fr;
          array_element_list := array_element_list fr;
          string_element := string_element fr;
          sum_visitor := sum_visitor fr;
          multiply_visitor := multiply_visitor fr;
          xor_visitor := xor_visitor fr;
          cout := o |} |}.

(** Two references at once, for a call that involves two objects. *)
Definition both {S1 S2} (r1 : ref S1) (r2 : ref S2) : ref (S1 * S2) :=
  {| load := fun fr => (load r1 fr, load r2 fr);
     store := fun p fr => store r2 (snd p) (store r1 (fst p) fr) |}.

(** A member function run on the object a reference designates. *)
Definition on {S A} (r : ref S) (m : M S A) : M frame A :=
  fun fr =>
    match m (load r fr) with
    | Returns a s => Returns a (store r s fr)
    | Throws e s => Throws e (store r s fr)
    | Undefined => Undefined
    end.

(** [std::cout << a << b << ...] *)
Definition print (items : list output) : M frame unit :=
  on ref_cout (modify (fun o => o ++ items)).

(** [catch (const std::runtime_error &e) { std::cout << e.what() << std::endl; }] *)
Definition print_what (e : runtime_error) : M frame unit :=
  print [OutString (what e); OutEndl].

(** [ForEachAdapter::operator()]: a call to [element.Accept (visitor_type)];
    the lambdas of [main] have the same body. *)
Definition ForEachAdapter {E V} `{AbstractElement E} `{AbstractVisitor V}
  : M (E * V) unit := Accept.

(** One [try] block over a list: [std::for_each] with the visitor [rv]. *)
Definition visit_list {E V} `{AbstractElement E} `{AbstractVisitor V}
    (rl : ref (list E)) (rv : ref V) : M frame unit :=
  try_catch (on (both rl rv) (for_each ForEachAdapter)) print_what.

(** One [try] block over one element: [element.Accept (visitor)]. *)
Definition visit_one {E V} `{AbstractElement E} `{AbstractVisitor V}
    (re : ref E) (rv : ref V) : M frame unit :=
  try_catch (on (both re rv) Accept) print_what.

Definition reset_all : M frame unit :=
  on ref_sum_visitor SumVisitor_Reset ;;
  on ref_multiply_visitor MultiplyVisitor_Reset ;;
  on ref_xor_visitor XORVisitor_Reset.

(** The results of a batch: sum, product and checksum, the checksum
    through [static_cast<int>]. *)
Definition print_results (batch : string) : M frame unit :=
  s <- gets (fun fr => SumVisitor_GetValue (sum_visitor fr)) ;;
  print [OutString ("Sum of " ++ batch ++ ": "); OutDouble s; OutEndl] ;;
  p <- gets (fun fr => MultiplyVisitor_GetValue (multiply_visitor fr)) ;;
  print [OutString ("Product of " ++ batch ++ ": "); OutDouble p; OutEndl] ;;
  c <- gets (fun fr => XORVisitor_GetValue (xor_visitor fr)) ;;
  print [OutString ("Checksum of " ++ batch ++ ": "); OutInt c; OutEndl].

(** Process SingleElement list *)
Definition single_sum_block : M frame unit :=
  visit_list ref_single_element_list ref_sum_visitor.
Definition single_multiply_block : M frame unit :=
  visit_list ref_single_element_list ref_multiply_visitor.
Definition single_xor_block : M frame unit :=
  visit_list ref_single_element_list ref_xor_visitor.

Definition process_single_element_list : M frame unit :=
  single_sum_block ;;
  single_multiply_block ;;
  single_xor_block ;;
  print_results "SingleElement list" ;;
  reset_all.

(** Process ArrayElement list *)
Definition array_sum_block : M frame unit :=
  visit_list ref_array_element_list ref_sum_visitor.
Definition array_multiply_block : M frame unit :=
  visit_list ref_array_element_list ref_multiply_visitor.
Definition array_xor_block : M frame unit :=
  visit_list ref_array_element_list ref_xor_visitor.

Definition process_array_element_list : M frame unit :=
  array_sum_block ;;
  array_multiply_block ;;
  array_xor_block ;;
  print_results "ArrayElement list" ;;
  reset_all.

(** Process StringElement *)
Definition process_string_element : M frame unit :=
  visit_one ref_string_element ref_sum_visitor ;;
  visit_one ref_string_element ref_multiply_visitor ;;
  visit_one ref_string_element ref_xor_visitor ;;
  print_results "StringElement" ;;
  reset_all.

Definition initial_values : list double :=
  map double_of_int [1; 2; 3; 4; 5; 6; 7; 8; 9].

(** ["Hello World 123456789\2"] *)
Definition hello : string :=
  "Hello World 123456789" ++ String (ascii_of_nat 2) EmptyString.

(** The local variables of [main] after their initialisation. *)
Definition locals (out : list output) : frame :=
  {| single_element_list := map (fun v => {| SingleElement_value := v |}) initial_values;
     array_element_list :=
       [ {| ArrayElement_value := map double_of_int [1] |};
         {| ArrayElement_value := map double_of_int [2; 3] |};
         {| ArrayElement_value := map double_of_int [4; 5; 6] |};
         {| ArrayElement_value := map double_of_int [7; 8; 9] |} ];
     string_element := {| StringElement_value := hello |};
     sum_visitor := SumVisitor_new;
     multiply_visitor := MultiplyVisitor_new;
     xor_visitor := XORVisitor_new;
     cout := out |}.

Definition main_body : M frame Z :=
  process_single_element_list ;;
  process_array_element_list ;;
  process_string_element ;;
  ret 0.

(** [int main (int argc, char *argv[])]: the state is [std::cout], the
    locals live for the duration of the call. *)
Definition main (argc : Z) (argv : list string) : M (list output) Z :=
  fun out =>
    match main_body (locals out) with
    | Returns r fr => Returns r (cout fr)
    | Throws e fr => Throws e (cout fr)
    | Undefined => Undefined
    end.

(** The error lines of an output: the strings that start with ["Error: "]. *)
Definition is_error_line (o : output) : bool :=
  match o with
  | OutString s => String.prefix "Error: " s
  | _ => false
  end.

Definition error_lines (o : list output) : nat := List.length (filter is_error_line o).

(** What [main] writes. *)
Definition expected_output : list output :=
  [ OutString "Error: Cannot apply XOR operation to SingleElement type"; OutEndl;
    OutString "Sum of SingleElement list: "; OutDouble (double_of_int 45); OutEndl;
    OutString "Product of SingleElement list: "; OutDouble (double_of_int 362880); OutEndl;
    OutString "Checksum of SingleElement list: "; OutInt 0; OutEndl;
    OutString "Error: Cannot apply XOR operation to ArrayElement type"; OutEndl;
    OutString "Sum of ArrayElement list: "; OutDouble (double_of_int 45); OutEndl;
    OutString "Product of ArrayElement list: "; OutDouble (double_of_int 362880); OutEndl;
    OutString "Checksum of ArrayElement list: "; OutInt 0; OutEndl;
    OutString "Sum of StringElement: "; OutDouble (double_of_int 45); OutEndl;
    OutString "Product of StringElement: "; OutDouble (double_of_int 362880); OutEndl;
    OutString "Checksum of StringElement: "; OutInt 51; OutEndl ].

(** ** Sample values *)

(** [0.5], [2.75] and [2147483648.0] in binary64. *)
Definition one_half : double := S754_finite false 4503599627370496 (-53).
Definition two_point_75 : double := S754_finite false 6192449487634432 (-51).
Definition two_to_31 : double := S754_finite false 4503599627370496 (-21).

(** [9007199254740992.0], that is [2^53], and a string of eighteen nines. *)
Definition two_to_53 : double := S754_finite false 4503599627370496 1.
Definition eighteen_nines : string := "999999999999999999".

(** The exact arithmetic sum of the numbers a sequence of finite [double]s
    denotes. *)
Definition exact_sum (l : list double) : Q :=
  fold_right (fun x q => exact_value x + q)%Q 0%Q l.

(** ** Notions for the properties of whole runs *)

(** The sign bit of a [double] ([false] for NaN). *)
Definition sign_bit (x : double) : bool :=
  match x with
  | S754_zero s | S754_infinity s | S754_finite s _ _ => s
  | S754_nan => false
  end.

(** The [double]s the conversion to [int] is defined on. *)
Definition convertible (x : double) : bool :=
  match int_of_double x with
  | Some _ => true
  | None => false
  end.

(** The object a call leaves behind: the caller of a call that threw goes
    on with the object as the throw left it. *)
Definition state_after {S A} (r : result S A) (otherwise : S) : S :=
  match r with
  | Returns _ s | Throws _ s => s
  | Undefined => otherwise
  end.

(** The calls a client can make on an XOR visitor. *)
Inductive XORVisitor_call : Type :=
| CallSingle (element : SingleElement)
| CallArray (element : ArrayElement)
| CallString (element : StringElement)
| CallReset.

Definition XORVisitor_do (c : XORVisitor_call) : M XORVisitor unit :=
  match c with
  | CallSingle element => ProcessSingleElement element
  | CallArray element => ProcessArrayElement element
  | CallString element => ProcessStringElement element
  | CallReset => XORVisitor_Reset
  end.

(** The visitor after a sequence of calls, each exception caught. *)
Definition XORVisitor_after (calls : list XORVisitor_call) (v : XORVisitor) : XORVisitor :=
  fold_left (fun v c => state_after (XORVisitor_do c v) v) calls v.

(** Every scalar element of the frame holds a value the conversion to
    [int] is defined on. *)
Definition scalars_convertible (fr : frame) : bool :=
  forallb (fun e => convertible (SingleElement_GetValue e)) (single_element_list fr).

(** What a part of the driver may do to the frame: the elements stay as
    they are and [out], with [errors] error lines, is added to the
    output. *)
Definition driver_step (fr fr' : frame) (errors : nat) : Prop :=
  single_element_list fr' = single_element_list fr
  /\ array_element_list fr' = array_element_list fr
  /\ string_element fr' = string_element fr
  /\ exists out, cout fr' = cout fr ++ out /\ error_lines out = errors.

(** All three visitors hold their identity value. *)
Definition visitors_reset (fr : frame) : Prop :=
  sum_visitor fr = SumVisitor_new
  /\ multiply_visitor fr = MultiplyVisitor_new
  /\ xor_visitor fr = XORVisitor_new.

(** The number of error lines a batch gives rise to. *)
Definition batch_errors {E} (batch : list E) : nat :=
  match batch with
  | [] => 0%nat
  | _ :: _ => 1%nat
  end.

(** * Properties *)

(** ** Binary64 arithmetic *)

Lemma iter_pos_iter {A} (f : A -> A) (n : positive) :
  forall x, iter_pos f n x = Pos.iter f x n.
Proof.
  induction n as [n IH | n IH | ]; intro x; simpl.
  - rewrite !IH. now rewrite !Pos.iter_swap.
  - now rewrite !IH.
  - reflexivity.
Qed.

Lemma digits2_pos_shiftl c (k : N) :
  Zpos (digits2_pos (Pos.shiftl c k)) = Zpos (digits2_pos c) + Z.of_N k.
Proof.
  destruct k as [ | k]; simpl; [lia | ].
  induction k as [ | k IH] using Pos.peano_ind.
  - simpl. lia.
  - rewrite Pos.iter_succ. simpl. lia.
Qed.

Lemma Zpos_shiftl c (k : N) : Zpos (Pos.shiftl c k) = Zpos c * 2 ^ Z.of_N k.
Proof.
  destruct k as [ | k]; simpl Pos.shiftl; [simpl; lia | ].
  induction k as [ | k IH] using Pos.peano_ind.
  - simpl. lia.
  - rewrite Pos.iter_succ, Pos2Z.inj_xO, IH.
    change (Z.of_N (N.pos (Pos.succ k))) with (Z.pos (Pos.succ k)).
    rewrite Pos2Z.inj_succ, Z.pow_succ_r by lia.
    change (Z.of_N (N.pos k)) with (Z.pos k). ring.
Qed.

Lemma shiftl_shiftl a (j k : N) : Pos.shiftl (Pos.shiftl a j) k = Pos.shiftl a (j + k).
Proof.
  apply Pos2Z.inj. rewrite !Zpos_shiftl, N2Z.inj_add, Z.pow_add_r by lia. ring.
Qed.

(** Shifting right what was shifted left loses nothing. *)
Lemma shr_1_shiftl c (k : positive) :
  iter_pos shr_1 k {| shr_m := Zpos (Pos.iter xO c k); shr_r := false; shr_s := false |}
  = {| shr_m := Zpos c; shr_r := false; shr_s := false |}.
Proof.
  rewrite iter_pos_iter.
  induction k as [ | k IH] using Pos.peano_ind.
  - reflexivity.
  - rewrite Pos.iter_succ_r. rewrite Pos.iter_succ. simpl. exact IH.
Qed.

Lemma shl_align_shiftl m e e' :
  shl_align m e e' = (Pos.shiftl m (Z.to_N (e - e')), Z.min e e').
Proof.
  unfold shl_align.
  destruct (e' - e) as [ | d | d] eqn:Hd.
  - replace (e - e') with 0 by lia. simpl. f_equal. lia.
  - replace (e - e') with (Z.neg d) by lia. simpl. f_equal. lia.
  - replace (e - e') with (Z.pos d) by lia. simpl. f_equal. lia.
Qed.

(** Rounding a representable number leaves it as it is: the mantissa
    [c * 2^k] at exponent [e] is [c] at exponent [e + k]. *)
Lemma binary_round_aux_exact sx c (k : N) e :
  canonical_mantissa prec emax c (e + Z.of_N k) = true ->
  e + Z.of_N k <= emax - prec ->
  binary_round_aux prec emax sx (Zpos (Pos.shiftl c k)) e loc_Exact
  = S754_finite sx c (e + Z.of_N k).
Proof.
  intros Hc He.
  unfold canonical_mantissa in Hc. apply Z.eqb_eq in Hc.
  unfold binary_round_aux, shr_fexp.
  unfold Zdigits2 at 1. rewrite digits2_pos_shiftl.
  replace (Z.pos (digits2_pos c) + Z.of_N k + e)
    with (Z.pos (digits2_pos c) + (e + Z.of_N k)) by lia.
  rewrite Hc.
  replace (e + Z.of_N k - e) with (Z.of_N k) by lia.
  assert (Hs : shr (shr_record_of_loc (Z.pos (Pos.shiftl c k)) loc_Exact) e (Z.of_N k)
               = ({| shr_m := Zpos c; shr_r := false; shr_s := false |}, e + Z.of_N k)).
  { destruct k as [ | k]; simpl.
    - now rewrite Z.add_0_r.
    - now rewrite shr_1_shiftl. }
  rewrite Hs. cbn [shr_m loc_of_shr_record round_nearest_even Zdigits2].
  rewrite Hc, Z.sub_diag. cbn [shr shr_record_of_loc shr_m].
  apply Z.leb_le in He. now rewrite He.
Qed.

Lemma binary_round_exact sx c (k : N) e :
  canonical_mantissa prec emax c (e + Z.of_N k) = true ->
  e + Z.of_N k <= emax - prec ->
  binary_round prec emax sx (Pos.shiftl c k) e = S754_finite sx c (e + Z.of_N k).
Proof.
  intros Hc He. unfold binary_round.
  rewrite shl_align_shiftl.
  assert (Hf : fexp prec emax (Z.pos (digits2_pos (Pos.shiftl c k)) + e) = e + Z.of_N k).
  { unfold canonical_mantissa in Hc. apply Z.eqb_eq in Hc.
    rewrite digits2_pos_shiftl.
    replace (Z.pos (digits2_pos c) + Z.of_N k + e)
      with (Z.pos (digits2_pos c) + (e + Z.of_N k)) by lia.
    exact Hc. }
  rewrite Hf.
  replace (Z.to_N (e - (e + Z.of_N k))) with 0%N by lia.
  replace (Z.min e (e + Z.of_N k)) with e by lia.
  cbn [Pos.shiftl]. now apply binary_round_aux_exact.
Qed.

(** The same when the mantissa has to be shifted left to become canonical. *)
Lemma binary_round_shift sx m (j : N) e :
  canonical_mantissa prec emax (Pos.shiftl m j) (e - Z.of_N j) = true ->
  e - Z.of_N j <= emax - prec ->
  binary_round prec emax sx m e = S754_finite sx (Pos.shiftl m j) (e - Z.of_N j).
Proof.
  intros Hc He. unfold binary_round.
  rewrite shl_align_shiftl.
  assert (Hf : fexp prec emax (Z.pos (digits2_pos m) + e) = e - Z.of_N j).
  { unfold canonical_mantissa in Hc. apply Z.eqb_eq in Hc.
    rewrite digits2_pos_shiftl in Hc.
    replace (Z.pos (digits2_pos m) + e)
      with (Z.pos (digits2_pos m) + Z.of_N j + (e - Z.of_N j)) by lia.
    exact Hc. }
  rewrite Hf.
  replace (Z.to_N (e - (e - Z.of_N j))) with j by lia.
  replace (Z.min e (e - Z.of_N j)) with (e - Z.of_N j) by lia.
  rewrite <- (Z.add_0_r (e - Z.of_N j)) at 2.
  change 0 with (Z.of_N 0).
  rewrite <- (binary_round_aux_exact sx (Pos.shiftl m j) 0 (e - Z.of_N j)).
  - reflexivity.
  - now rewrite Z.add_0_r.
  - lia.
Qed.

(** [x * 1.0] is [x], for every [double]. *)
Lemma dmul_one_r x : dvalid x -> dmul x (double_of_int 1) = x.
Proof.
  destruct x as [s | s | | s m e]; intro Hx; try reflexivity.
  - now destruct s.
  - now destruct s.
  - unfold dvalid, valid_binary, bounded in Hx. apply andb_prop in Hx as [Hc He].
    apply Z.leb_le in He.
    change (double_of_int 1) with (S754_finite false 4503599627370496 (-52)).
    unfold dmul, SFmul.
    change (m * 4503599627370496)%positive with (m * Pos.shiftl 1 52)%positive.
    replace (m * Pos.shiftl 1 52)%positive with (Pos.shiftl m 52).
    2:{ apply Pos2Z.inj. rewrite Pos2Z.inj_mul, !Zpos_shiftl. ring. }
    rewrite (binary_round_aux_exact (xorb s false) m 52 (e + -52)).
    + rewrite xorb_false_r. f_equal. lia.
    + replace (e + -52 + Z.of_N 52) with e by lia. exact Hc.
    + lia.
Qed.

(** [0.0 + x] is [x], except that [0.0 + -0.0] is [0.0]. *)
Lemma dadd_zero_l x : x <> S754_zero true -> dadd (S754_zero false) x = x.
Proof.
  intro Hx. destruct x as [[] | s | | s m e]; try reflexivity.
  now elim Hx.
Qed.

(** The integral part is the truncation toward zero of the exact value. *)
Lemma integral_part_truncate x :
  is_finite x = true -> integral_part x = Some (truncate (exact_value x)).
Proof.
  destruct x as [s | s | | s m e]; try discriminate; intros _.
  - reflexivity.
  - unfold integral_part, truncate. f_equal.
    destruct e as [ | e | e]; cbn [exact_value inject_Z Qnum Qden].
    + rewrite Z.quot_1_r. now rewrite Z.shiftl_mul_pow2 by lia.
    + rewrite Z.quot_1_r. now rewrite Z.shiftl_mul_pow2 by lia.
    + rewrite Z.shiftl_div_pow2 by lia. rewrite Pos2Z.inj_pow.
      change (- Z.neg e) with (Z.pos e).
      assert (0 < 2 ^ Z.pos e) by (apply Z.pow_pos_nonneg; lia).
      destruct s; cbn [cond_Zopp].
      * rewrite Z.quot_opp_l by lia.
        now rewrite Z.quot_div_nonneg by lia.
      * now rewrite Z.quot_div_nonneg by lia.
Qed.

Lemma int_of_double_truncate x :
  is_finite x = true ->
  in_int_range (truncate (exact_value x)) = true ->
  int_of_double x = Some (truncate (exact_value x)).
Proof.
  intros Hf Hr. unfold int_of_double.
  rewrite (integral_part_truncate x Hf). now rewrite Hr.
Qed.

(** ** Integers in binary64 *)

Lemma digits2_pos_bounds p :
  2 ^ (Zpos (digits2_pos p) - 1) <= Zpos p < 2 ^ Zpos (digits2_pos p).
Proof.
  induction p as [p IH | p IH | ]; cbn [digits2_pos]; [ | | simpl; lia].
  all: rewrite Pos2Z.inj_succ, ?(Pos2Z.inj_xI p), ?(Pos2Z.inj_xO p).
  all: replace (Z.succ (Z.pos (digits2_pos p)) - 1)
         with (Z.succ (Z.pos (digits2_pos p) - 1)) by lia.
  all: rewrite !Z.pow_succ_r by lia.
  all: generalize dependent (2 ^ (Z.pos (digits2_pos p) - 1)).
  all: generalize (2 ^ Z.pos (digits2_pos p)); intros; lia.
Qed.

Lemma digits2_pos_le_iff p k : 0 <= k -> Zpos (digits2_pos p) <= k <-> Zpos p < 2 ^ k.
Proof.
  intro Hk. pose proof (digits2_pos_bounds p) as [Hlo Hhi]. split; intro H.
  - eapply Z.lt_le_trans; [exact Hhi | ]. apply Z.pow_le_mono_r; lia.
  - destruct (Z_le_gt_dec (Zpos (digits2_pos p)) k) as [ | Hgt]; [assumption | exfalso].
    assert (2 ^ k <= 2 ^ (Zpos (digits2_pos p) - 1)) by (apply Z.pow_le_mono_r; lia).
    lia.
Qed.

Lemma digits2_pos_mono p q :
  (p <= q)%positive -> Zpos (digits2_pos p) <= Zpos (digits2_pos q).
Proof.
  intro H. apply digits2_pos_le_iff; [lia | ].
  pose proof (digits2_pos_bounds q) as [_ Hq]. lia.
Qed.

Lemma canonical_mantissa_53 n (j : Z) :
  j = 53 - Zpos (digits2_pos n) -> 0 <= j ->
  canonical_mantissa prec emax (Pos.shiftl n (Z.to_N j)) (- j) = true.
Proof.
  intros Hj H0. unfold canonical_mantissa. apply Z.eqb_eq.
  rewrite digits2_pos_shiftl, Z2N.id by lia.
  unfold fexp, emin, prec, emax. lia.
Qed.

Lemma binary_round_integer s n :
  Zpos n < 2 ^ 53 -> binary_round prec emax s n 0 = canonical s n.
Proof.
  intro Hn. apply digits2_pos_le_iff in Hn; [ | lia].
  unfold canonical.
  set (j := 53 - Zpos (digits2_pos n)).
  rewrite (binary_round_shift s n (Z.to_N j) 0).
  - now rewrite Z2N.id by lia.
  - rewrite Z2N.id by lia. apply canonical_mantissa_53; [reflexivity | lia].
  - unfold emax, prec. lia.
Qed.

Lemma double_of_int_pos n :
  Zpos n < 2 ^ 53 -> double_of_int (Zpos n) = canonical false n.
Proof. apply binary_round_integer. Qed.

Lemma double_of_int_neg n :
  Zpos n < 2 ^ 53 -> double_of_int (Zneg n) = canonical true n.
Proof. apply binary_round_integer. Qed.

Lemma dvalid_canonical s n : Zpos n < 2 ^ 53 -> dvalid (canonical s n).
Proof.
  intro Hn. apply digits2_pos_le_iff in Hn; [ | lia].
  unfold dvalid, canonical, valid_binary, bounded.
  rewrite canonical_mantissa_53 by lia.
  apply Z.leb_le. unfold emax, prec. lia.
Qed.

(** Every integer of magnitude below [2^53], so every [int], converts to
    a well-formed [double] without rounding. *)
Lemma dvalid_double_of_int v : Z.abs v < 2 ^ 53 -> dvalid (double_of_int v).
Proof.
  intro Hv. destruct v as [ | n | n].
  - reflexivity.
  - rewrite double_of_int_pos by exact Hv. now apply dvalid_canonical.
  - rewrite double_of_int_neg by exact Hv. now apply dvalid_canonical.
Qed.

Lemma exact_value_canonical s n :
  Zpos n < 2 ^ 53 ->
  (exact_value (canonical s n) == inject_Z (cond_Zopp s (Zpos n)))%Q.
Proof.
  intro Hn. apply digits2_pos_le_iff in Hn; [ | lia].
  unfold canonical.
  remember (53 - Zpos (digits2_pos n)) as j eqn:Hj.
  destruct j as [ | i | i]; [ | | lia].
  - cbn [Z.opp Z.to_N Pos.shiftl exact_value]. now rewrite Z.mul_1_r.
  - cbn [Z.opp Z.to_N exact_value].
    unfold Qeq. cbn [Qnum Qden inject_Z].
    rewrite Pos2Z.inj_pow.
    assert (Hm : Zpos (Pos.shiftl n (N.pos i)) = Zpos n * 2 ^ Zpos i)
      by (rewrite Zpos_shiftl; reflexivity).
    destruct s; cbn [cond_Zopp]; rewrite Hm; ring.
Qed.

Lemma double_of_int_exact v :
  Z.abs v < 2 ^ 53 -> (exact_value (double_of_int v) == inject_Z v)%Q.
Proof.
  intro Hv. destruct v as [ | n | n].
  - reflexivity.
  - rewrite double_of_int_pos by exact Hv. now apply (exact_value_canonical false).
  - rewrite double_of_int_neg by exact Hv. now apply (exact_value_canonical true).
Qed.

(** *** Sums and products of small non-negative integers do not round *)

Lemma dadd_canonical a b :
  Zpos a + Zpos b < 2 ^ 53 ->
  dadd (canonical false a) (canonical false b) = canonical false (a + b).
Proof.
  intro Hab.
  assert (Hdab : Zpos (digits2_pos (a + b)) <= 53)
    by (apply digits2_pos_le_iff; [lia | rewrite Pos2Z.inj_add; exact Hab]).
  assert (Hda : Zpos (digits2_pos a) <= Zpos (digits2_pos (a + b)))
    by (apply digits2_pos_mono; lia).
  assert (Hdb : Zpos (digits2_pos b) <= Zpos (digits2_pos (a + b)))
    by (apply digits2_pos_mono; lia).
  unfold canonical, dadd, SFadd.
  set (ja := 53 - Zpos (digits2_pos a)).
  set (jb := 53 - Zpos (digits2_pos b)).
  set (jab := 53 - Zpos (digits2_pos (a + b))).
  rewrite !shl_align_shiftl. cbn [fst cond_Zopp].
  rewrite !shiftl_shiftl.
  set (J := Z.max ja jb).
  replace (Z.min (- ja) (- jb)) with (- J) by lia.
  replace (Z.to_N ja + Z.to_N (- ja - - J))%N with (Z.to_N J) by lia.
  replace (Z.to_N jb + Z.to_N (- jb - - J))%N with (Z.to_N J) by lia.
  assert (Hsum : Zpos (Pos.shiftl a (Z.to_N J)) + Zpos (Pos.shiftl b (Z.to_N J))
                 = Zpos (Pos.shiftl (Pos.shiftl (a + b) (Z.to_N jab)) (Z.to_N (J - jab)))).
  { rewrite shiftl_shiftl.
    replace (Z.to_N jab + Z.to_N (J - jab))%N with (Z.to_N J) by lia.
    rewrite !Zpos_shiftl, Pos2Z.inj_add. ring. }
  rewrite Hsum. cbn [binary_normalize].
  rewrite binary_round_exact.
  - f_equal. lia.
  - replace (- J + Z.of_N (Z.to_N (J - jab))) with (- jab) by lia.
    apply canonical_mantissa_53; [reflexivity | lia].
  - unfold emax, prec. lia.
Qed.

Lemma dmul_canonical a b :
  Zpos a * Zpos b < 2 ^ 53 ->
  dmul (canonical false a) (canonical false b) = canonical false (a * b).
Proof.
  intro Hab.
  assert (Hdab : Zpos (digits2_pos (a * b)) <= 53)
    by (apply digits2_pos_le_iff; [lia | rewrite Pos2Z.inj_mul; exact Hab]).
  assert (Hda : Zpos (digits2_pos a) <= Zpos (digits2_pos (a * b)))
    by (apply digits2_pos_mono; nia).
  assert (Hdb : Zpos (digits2_pos b) <= Zpos (digits2_pos (a * b)))
    by (apply digits2_pos_mono; nia).
  unfold canonical, dmul, SFmul.
  set (ja := 53 - Zpos (digits2_pos a)).
  set (jb := 53 - Zpos (digits2_pos b)).
  set (jab := 53 - Zpos (digits2_pos (a * b))).
  assert (Hprod : (Pos.shiftl a (Z.to_N ja) * Pos.shiftl b (Z.to_N jb))%positive
                  = Pos.shiftl (Pos.shiftl (a * b) (Z.to_N jab)) (Z.to_N (ja + jb - jab))).
  { apply Pos2Z.inj. rewrite shiftl_shiftl.
    replace (Z.to_N jab + Z.to_N (ja + jb - jab))%N with (Z.to_N ja + Z.to_N jb)%N by lia.
    rewrite Pos2Z.inj_mul, !Zpos_shiftl, Pos2Z.inj_mul, N2Z.inj_add, Z.pow_add_r by lia.
    ring. }
  rewrite Hprod. cbn [xorb].
  rewrite binary_round_aux_exact.
  - f_equal. lia.
  - replace (- ja + - jb + Z.of_N (Z.to_N (ja + jb - jab))) with (- jab) by lia.
    apply canonical_mantissa_53; [reflexivity | lia].
  - unfold emax, prec. lia.
Qed.

Lemma dadd_int_exact a b :
  0 <= a -> 0 <= b -> a + b < 2 ^ 53 ->
  dadd (double_of_int a) (double_of_int b) = double_of_int (a + b).
Proof.
  intros Ha Hb Hab.
  destruct a as [ | a | a]; [ | | lia]; destruct b as [ | b | b]; try lia.
  - reflexivity.
  - rewrite Z.add_0_l. now rewrite double_of_int_pos by lia.
  - rewrite Z.add_0_r. now rewrite double_of_int_pos by lia.
  - rewrite !double_of_int_pos by lia.
    change (Z.pos a + Z.pos b) with (Z.pos (a + b)).
    rewrite double_of_int_pos by (rewrite Pos2Z.inj_add; lia).
    now apply dadd_canonical.
Qed.

Lemma dmul_int_exact a b :
  0 <= a < 2 ^ 53 -> 0 <= b < 2 ^ 53 -> a * b < 2 ^ 53 ->
  dmul (double_of_int a) (double_of_int b) = double_of_int (a * b).
Proof.
  intros Ha Hb Hab.
  destruct a as [ | a | a]; [ | | lia]; destruct b as [ | b | b]; try lia.
  - reflexivity.
  - rewrite Z.mul_0_l. now rewrite double_of_int_pos by lia.
  - rewrite Z.mul_0_r. now rewrite double_of_int_pos by lia.
  - rewrite !double_of_int_pos by lia.
    change (Z.pos a * Z.pos b) with (Z.pos (a * b)).
    rewrite double_of_int_pos by (rewrite Pos2Z.inj_mul; lia).
    now apply dmul_canonical.
Qed.

(** *** Folds over integer values *)

Lemma integer_sum_cons z zs : integer_sum (z :: zs) = z + integer_sum zs.
Proof. reflexivity. Qed.

Lemma integer_product_cons z zs : integer_product (z :: zs) = z * integer_product zs.
Proof. reflexivity. Qed.

Lemma integer_sum_nonneg zs : Forall (fun z => 0 <= z) zs -> 0 <= integer_sum zs.
Proof.
  induction 1 as [ | z zs Hz _ IH]; [cbn; lia | rewrite integer_sum_cons; lia].
Qed.

Lemma integer_product_pos zs : Forall (fun z => 1 <= z) zs -> 1 <= integer_product zs.
Proof.
  induction 1 as [ | z zs Hz _ IH]; [cbn; lia | rewrite integer_product_cons; nia].
Qed.

Lemma fold_dadd_integers zs : forall a,
  Forall (fun z => 0 <= z) zs ->
  0 <= a ->
  a + integer_sum zs < 2 ^ 53 ->
  fold_left dadd (map double_of_int zs) (double_of_int a)
  = double_of_int (a + integer_sum zs).
Proof.
  induction zs as [ | z zs IH]; intros a Hzs Ha Hsum.
  - cbn. now rewrite Z.add_0_r.
  - inversion Hzs as [ | ? ? Hz Hrest]; subst.
    pose proof (integer_sum_nonneg zs Hrest) as Hnn.
    rewrite integer_sum_cons in *.
    cbn [map fold_left].
    rewrite dadd_int_exact by lia.
    rewrite IH by (assumption || lia).
    f_equal. lia.
Qed.

Lemma fold_dmul_integers zs : forall p,
  Forall (fun z => 1 <= z) zs ->
  1 <= p ->
  p * integer_product zs < 2 ^ 53 ->
  fold_left dmul (map double_of_int zs) (double_of_int p)
  = double_of_int (p * integer_product zs).
Proof.
  induction zs as [ | z zs IH]; intros p Hzs Hp Hprod.
  - cbn. now rewrite Z.mul_1_r.
  - inversion Hzs as [ | ? ? Hz Hrest]; subst.
    pose proof (integer_product_pos zs Hrest) as Hnn.
    rewrite integer_product_cons in *.
    cbn [map fold_left].
    rewrite dmul_int_exact by nia.
    rewrite IH by (assumption || nia).
    f_equal. ring.
Qed.

(** With factors between 0 and 9 every partial product stays below
    [9 ^ length], zeros included. *)
Lemma fold_dmul_digits ds : forall p,
  Forall (fun d => 0 <= d <= 9) ds ->
  0 <= p ->
  p * 9 ^ Z.of_nat (List.length ds) < 2 ^ 53 ->
  fold_left dmul (map double_of_int ds) (double_of_int p)
  = double_of_int (p * integer_product ds).
Proof.
  induction ds as [ | d ds IH]; intros p Hds Hp Hb.
  - cbn. now rewrite Z.mul_1_r.
  - inversion Hds as [ | ? ? Hd Hrest]; subst.
    cbn [List.length] in Hb. rewrite Nat2Z.inj_succ, Z.pow_succ_r in Hb by lia.
    assert (Hpow : 0 < 9 ^ Z.of_nat (List.length ds)) by (apply Z.pow_pos_nonneg; lia).
    rewrite integer_product_cons.
    cbn [map fold_left].
    rewrite dmul_int_exact by nia.
    rewrite IH by (assumption || nia).
    f_equal. ring.
Qed.

Lemma integer_sum_digits ds :
  Forall (fun d => 0 <= d <= 9) ds ->
  0 <= integer_sum ds <= 9 * Z.of_nat (List.length ds).
Proof.
  induction 1 as [ | d ds Hd _ IH]; [cbn; lia | ].
  rewrite integer_sum_cons. cbn [List.length]. lia.
Qed.

Lemma integer_product_digits ds :
  Forall (fun d => 0 <= d <= 9) ds ->
  0 <= integer_product ds <= 9 ^ Z.of_nat (List.length ds).
Proof.
  induction 1 as [ | d ds Hd _ IH]; [cbn; lia | ].
  rewrite integer_product_cons. cbn [List.length].
  rewrite Nat2Z.inj_succ, Z.pow_succ_r by lia. nia.
Qed.

(** ** Characters *)

Create HintDb uchar.

Lemma uchar_of_char_range c : 0 <= uchar_of_char c < 256.
Proof.
  unfold uchar_of_char.
  pose proof (N_ascii_bounded c) as H. lia.
Qed.

Lemma uchar_of_char_nat c : uchar_of_char c = Z.of_nat (nat_of_ascii c).
Proof. unfold uchar_of_char, nat_of_ascii. now rewrite N_nat_Z. Qed.

Lemma to_uchar_id a : 0 <= a < 256 -> to_uchar a = a.
Proof. intro H. unfold to_uchar. now apply Z.mod_small. Qed.

Lemma log2_uchar a : 0 <= a < 256 -> Z.log2 a < 8.
Proof.
  intro Ha. destruct (Z.eq_dec a 0) as [-> | Hn]; [simpl; lia | ].
  apply Z.log2_lt_pow2; simpl; lia.
Qed.

Lemma lxor_uchar a b : 0 <= a < 256 -> 0 <= b < 256 -> 0 <= Z.lxor a b < 256.
Proof.
  intros Ha Hb.
  assert (H0 : 0 <= Z.lxor a b) by (apply Z.lxor_nonneg; lia).
  split; [exact H0 | ].
  destruct (Z.eq_dec (Z.lxor a b) 0) as [-> | Hn]; [lia | ].
  change 256 with (2 ^ 8). apply Z.log2_lt_pow2; [lia | ].
  eapply Z.le_lt_trans; [apply Z.log2_lxor; lia | ].
  apply Z.max_lub_lt; now apply log2_uchar.
Qed.

#[local] Hint Resolve uchar_of_char_range lxor_uchar : uchar.

Lemma xor_of_codes_range s : 0 <= xor_of_codes s < 256.
Proof.
  induction s as [ | c s IH]; simpl; [lia | ].
  rewrite <- uchar_of_char_nat. auto with uchar.
Qed.

#[local] Hint Resolve xor_of_codes_range : uchar.

Lemma accumulate_lambda_xor s : forall acc,
  0 <= acc < 256 ->
  accumulate (list_ascii_of_string s) acc lambda_xor = Z.lxor acc (xor_of_codes s).
Proof.
  unfold accumulate.
  induction s as [ | c s IH]; intros acc Hacc; simpl.
  - now rewrite Z.lxor_0_r.
  - unfold lambda_xor at 2. rewrite to_uchar_id by exact Hacc.
    rewrite IH by auto with uchar.
    rewrite uchar_of_char_nat. now rewrite Z.lxor_assoc.
Qed.

(** [std::isdigit] and [ch - '0'] against the table of digits, on all 256
    characters. *)
Lemma isdigit_digit_value c :
  match digit_value c with
  | Some d => isdigit (uchar_of_char c) = true /\ uchar_of_char c - 48 = d
  | None => isdigit (uchar_of_char c) = false
  end.
Proof.
  destruct c as [[] [] [] [] [] [] [] []]; vm_compute; auto.
Qed.

Lemma digit_value_range c d : digit_value c = Some d -> 0 <= d <= 9.
Proof.
  intro H. pose proof (isdigit_digit_value c) as Hc. rewrite H in Hc.
  destruct Hc as [Hd <-]. unfold isdigit in Hd.
  apply andb_prop in Hd as [H1 H2]. apply Z.leb_le in H1, H2. lia.
Qed.

Lemma digit_values_range s : Forall (fun d => 0 <= d <= 9) (digit_values s).
Proof.
  induction s as [ | c s IH]; cbn [digit_values]; [constructor | ].
  destruct (digit_value c) as [d | ] eqn:Hd; [ | exact IH].
  constructor; [ | exact IH]. now apply digit_value_range with c.
Qed.

(** ** The text handlers fold over the digit values *)

Section DigitFold.

(** A lambda that combines the accumulator with the value of a digit and
    skips every other character. *)
Variable op : double -> double -> double.
Variable lambda : double -> ascii -> double.
Hypothesis lambda_digit : forall acc c,
  lambda acc c =
  if isdigit (uchar_of_char c) then op acc (double_of_int (uchar_of_char c - 48)) else acc.

Lemma accumulate_digits s : forall init,
  accumulate (list_ascii_of_string s) init lambda
  = fold_left op (map double_of_int (digit_values s)) init.
Proof.
  unfold accumulate.
  induction s as [ | c s IH]; intro init; simpl; [reflexivity | ].
  rewrite IH, lambda_digit.
  pose proof (isdigit_digit_value c) as H.
  destruct (digit_value c) as [d | ].
  - destruct H as [-> ->]. reflexivity.
  - rewrite H. reflexivity.
Qed.

End DigitFold.

Lemma accumulate_SumVisitor_lambda s init :
  accumulate (list_ascii_of_string s) init SumVisitor_lambda
  = fold_left dadd (map double_of_int (digit_values s)) init.
Proof. now apply accumulate_digits. Qed.

Lemma accumulate_lambda_multiply s init :
  accumulate (list_ascii_of_string s) init lambda_multiply
  = fold_left dmul (map double_of_int (digit_values s)) init.
Proof. now apply accumulate_digits. Qed.

(** ** The handlers of the visitors *)

(** Unfolds a handler down to the state it returns. *)
Ltac run_handler :=
  unfold SumVisitor_ProcessSingleElement, MultiplyVisitor_ProcessSingleElement,
    SumVisitor_ProcessArrayElement, MultiplyVisitor_ProcessArrayElement,
    SumVisitor_ProcessStringElement, MultiplyVisitor_ProcessStringElement,
    XORVisitor_ProcessStringElement,
    SingleElement_GetValue, ArrayElement_GetValue, StringElement_GetValue,
    bind, defined, modify;
  cbn [SingleElement_value ArrayElement_value StringElement_value
       SumVisitor_value MultiplyVisitor_value XORVisitor_value].

(** C2 (amended): for every finite [double] [x] whose truncation toward
    zero fits in an [int], the scalar handler of the sum visitor adds that
    truncation, converted back to [double] without rounding, to the
    accumulator, and the scalar handler of the product visitor multiplies
    the accumulator by the same value. *)
Theorem scalar_handlers_truncate (x acc_sum acc_product : double) :
  is_finite x = true ->
  in_int_range (truncate (exact_value x)) = true ->
  SumVisitor_ProcessSingleElement {| SingleElement_value := x |}
    {| SumVisitor_value := acc_sum |}
  = Returns tt
      {| SumVisitor_value := dadd acc_sum (double_of_int (truncate (exact_value x))) |}
  /\
  MultiplyVisitor_ProcessSingleElement {| SingleElement_value := x |}
    {| MultiplyVisitor_value := acc_product |}
  = Returns tt
      {| MultiplyVisitor_value :=
           dmul acc_product (double_of_int (truncate (exact_value x))) |}
  /\
  (exact_value (double_of_int (truncate (exact_value x)))
   == inject_Z (truncate (exact_value x)))%Q.
Proof.
  intros Hf Hr. run_handler.
  rewrite (int_of_double_truncate x Hf Hr). repeat split.
  apply double_of_int_exact.
  unfold in_int_range, INT_MIN, INT_MAX in Hr.
  apply andb_prop in Hr as [H1 H2]. apply Z.leb_le in H1, H2. lia.
Qed.

Lemma scalar_handlers_truncate_witness :
  SumVisitor_ProcessSingleElement {| SingleElement_value := two_point_75 |}
    {| SumVisitor_value := double_of_int 10 |}
  = Returns tt {| SumVisitor_value := double_of_int 12 |}
  /\
  MultiplyVisitor_ProcessSingleElement {| SingleElement_value := two_point_75 |}
    {| MultiplyVisitor_value := double_of_int 10 |}
  = Returns tt {| MultiplyVisitor_value := double_of_int 20 |}
  /\
  (exact_value (double_of_int 2) == inject_Z 2)%Q.
Proof.
  exact (scalar_handlers_truncate two_point_75 (double_of_int 10) (double_of_int 10)
           eq_refl eq_refl).
Defined.

(** C2 as stated fails at [x = 2147483648.0]: the truncation of [x] is
    [2^31], which no [int] holds, so the conversion [int v = x] has no
    defined result and the handler does not return with the truncation
    added. *)
Lemma scalar_handler_out_of_range :
  truncate (exact_value two_to_31) = 2147483648
  /\ (forall v : Z, in_int_range v = true -> v <> truncate (exact_value two_to_31))
  /\ SumVisitor_ProcessSingleElement {| SingleElement_value := two_to_31 |}
       {| SumVisitor_value := double_of_int 0 |}
     <> Returns tt
          {| SumVisitor_value :=
               dadd (double_of_int 0) (double_of_int (truncate (exact_value two_to_31))) |}.
Proof.
  split; [reflexivity | split].
  - intros v Hv ->. discriminate Hv.
  - vm_compute. discriminate.
Qed.

(** C3: dispatching the XOR visitor to a scalar or to a sequence element
    throws the error whose message names [SingleElement], respectively
    [ArrayElement], and leaves the visitor (and the element) as they were. *)
Theorem xor_unsupported (v : XORVisitor) :
  (forall e : SingleElement,
     Accept (e, v)
     = Throws {| what := "Error: Cannot apply XOR operation to SingleElement type" |} (e, v))
  /\
  (forall e : ArrayElement,
     Accept (e, v)
     = Throws {| what := "Error: Cannot apply XOR operation to ArrayElement type" |} (e, v)).
Proof. split; intro e; reflexivity. Qed.

Lemma exact_sum_integers zs :
  Forall (fun z => Z.abs z < 2 ^ 53) zs ->
  (exact_sum (map double_of_int zs) == inject_Z (integer_sum zs))%Q.
Proof.
  induction 1 as [ | z zs Hz _ IH]; [reflexivity | ].
  cbn [map exact_sum fold_right]. fold (exact_sum (map double_of_int zs)).
  rewrite integer_sum_cons, inject_Z_plus, IH, double_of_int_exact by exact Hz.
  reflexivity.
Qed.

(** C4 (amended): the sequence handler of the sum visitor adds to the
    accumulator the sum of the stored values as [std::accumulate] computes
    it: from [0.0], left to right, in [double] arithmetic, each addition
    rounded.  The values enter the sum as they are, none is truncated: a
    one-element sequence sums to its value.  The sum is the exact
    arithmetic sum of the values when they are non-negative integers whose
    sum is below [2^53]. *)
Theorem sum_sequence_handler (acc : double) :
  (forall vs : list double,
     SumVisitor_ProcessArrayElement {| ArrayElement_value := vs |}
       {| SumVisitor_value := acc |}
     = Returns tt {| SumVisitor_value := dadd acc (double_sum vs) |})
  /\
  (forall x : double, x <> S754_zero true -> double_sum [x] = x)
  /\
  (forall zs : list Z,
     Forall (fun z => 0 <= z) zs ->
     integer_sum zs < 2 ^ 53 ->
     double_sum (map double_of_int zs) = double_of_int (integer_sum zs)
     /\ (exact_value (double_sum (map double_of_int zs))
         == exact_sum (map double_of_int zs))%Q).
Proof.
  split; [ | split].
  - intro vs. reflexivity.
  - intros x Hx. unfold double_sum. cbn [fold_left]. now apply dadd_zero_l.
  - intros zs Hzs Hsum.
    assert (Heq : double_sum (map double_of_int zs) = double_of_int (integer_sum zs)).
    { unfold double_sum. change (S754_zero false) with (double_of_int 0).
      rewrite fold_dadd_integers by (assumption || lia). reflexivity. }
    split; [exact Heq | ].
    pose proof (integer_sum_nonneg zs Hzs) as Hnn.
    rewrite Heq, double_of_int_exact by lia.
    symmetry. apply exact_sum_integers.
    clear Heq. induction Hzs as [ | z zs Hz Hrest IH]; constructor.
    + rewrite integer_sum_cons in *. pose proof (integer_sum_nonneg zs Hrest). lia.
    + apply IH; rewrite integer_sum_cons in *;
        pose proof (integer_sum_nonneg zs Hrest); lia.
Qed.

Lemma sum_sequence_handler_witness :
  double_sum [one_half] = one_half
  /\ double_sum (map double_of_int [7; 8; 9]) = double_of_int 24
  /\ (exact_value (double_sum (map double_of_int [7%Z; 8%Z; 9%Z]))
      == exact_sum (map double_of_int [7%Z; 8%Z; 9%Z]))%Q.
Proof.
  split.
  - refine (proj1 (proj2 (sum_sequence_handler one_half)) one_half _). discriminate.
  - refine (proj2 (proj2 (sum_sequence_handler one_half)) [7; 8; 9] _ _).
    + repeat constructor; lia.
    + reflexivity.
Defined.

(** C4 as stated fails on the sequence [2^53; 1.0; 1.0]: each [1.0] is
    lost when it is added to [2^53], so the handler adds [2^53] to the
    accumulator, which is not the exact arithmetic sum [2^53 + 2], although
    that sum is itself a [double]. *)
Lemma sum_sequence_not_exact :
  SumVisitor_ProcessArrayElement
    {| ArrayElement_value := [two_to_53; double_of_int 1; double_of_int 1] |}
    {| SumVisitor_value := double_of_int 0 |}
  = Returns tt {| SumVisitor_value := two_to_53 |}
  /\ (exact_sum [two_to_53; double_of_int 1; double_of_int 1]
      == inject_Z (2 ^ 53 + 2))%Q
  /\ (exact_value (double_of_int (2 ^ 53 + 2)) == inject_Z (2 ^ 53 + 2))%Q
  /\ ~ (exact_value two_to_53
        == exact_sum [two_to_53; double_of_int 1; double_of_int 1])%Q.
Proof.
  split; [reflexivity | split; [reflexivity | split; [reflexivity | ]]].
  intro H. vm_compute in H. discriminate H.
Qed.

(** C5: the sequence handler of the product visitor multiplies the
    accumulator by the product of the stored values, accumulated from
    [1.0] in [double] arithmetic; on the empty sequence the accumulator is
    unchanged.  Positive integer values multiply to their integer product
    as long as it is below [2^53]. *)
Theorem product_sequence_handler (acc : double) :
  (forall vs : list double,
     MultiplyVisitor_ProcessArrayElement {| ArrayElement_value := vs |}
       {| MultiplyVisitor_value := acc |}
     = Returns tt {| MultiplyVisitor_value := dmul acc (double_product vs) |})
  /\
  (dvalid acc ->
     MultiplyVisitor_ProcessArrayElement {| ArrayElement_value := [] |}
       {| MultiplyVisitor_value := acc |}
     = Returns tt {| MultiplyVisitor_value := acc |})
  /\
  (forall zs : list Z,
     Forall (fun z => 1 <= z) zs ->
     integer_product zs < 2 ^ 53 ->
     double_product (map double_of_int zs) = double_of_int (integer_product zs)).
Proof.
  repeat split.
  - intro Hacc. run_handler. unfold accumulate. cbn [fold_left].
    now rewrite dmul_one_r.
  - intros zs Hzs Hprod. unfold double_product.
    change (S754_finite false 4503599627370496 (-52)) with (double_of_int 1).
    rewrite fold_dmul_integers by (assumption || lia).
    now rewrite Z.mul_1_l.
Qed.

Lemma product_sequence_handler_witness :
  MultiplyVisitor_ProcessArrayElement {| ArrayElement_value := [] |}
    {| MultiplyVisitor_value := one_half |}
  = Returns tt {| MultiplyVisitor_value := one_half |}
  /\ double_product (map double_of_int [7; 8; 9]) = double_of_int 504.
Proof.
  split.
  - refine (proj1 (proj2 (product_sequence_handler one_half)) _). reflexivity.
  - refine (proj2 (proj2 (product_sequence_handler one_half)) [7; 8; 9] _ _).
    + repeat constructor; lia.
    + reflexivity.
Defined.

(** C6: whatever the state of the visitor, [Reset ()] returns and leaves
    [0.0] in a sum visitor, [1.0] in a product visitor and [0] in an XOR
    visitor. *)
Theorem reset_identity :
  (forall v : SumVisitor,
     exists v', SumVisitor_Reset v = Returns tt v'
                /\ SumVisitor_GetValue v' = S754_zero false)
  /\
  (forall v : MultiplyVisitor,
     exists v', MultiplyVisitor_Reset v = Returns tt v'
                /\ MultiplyVisitor_GetValue v' = S754_finite false 4503599627370496 (-52))
  /\
  (forall v : XORVisitor,
     exists v', XORVisitor_Reset v = Returns tt v'
                /\ XORVisitor_GetValue v' = 0).
Proof.
  repeat split; intro v; eexists; split; reflexivity.
Qed.

(** C7 (amended): the text handler of the sum visitor adds to the
    accumulator the sum of the digit values of the string, and the text
    handler of the product visitor multiplies the accumulator by their
    product, both accumulated left to right in [double] arithmetic, each
    operation rounded; characters that are not ASCII digits have no digit
    value and contribute nothing, a ['0'] contributes the factor [0].  The
    sum is exactly the integer sum of the digit values for every string of
    fewer than [10^15] digits, the product is exactly their integer
    product for every string of at most 16 digits. *)
Theorem text_handlers_digits (s : string) (acc_sum acc_product : double) :
  SumVisitor_ProcessStringElement {| StringElement_value := s |}
    {| SumVisitor_value := acc_sum |}
  = Returns tt
      {| SumVisitor_value :=
           dadd acc_sum (double_sum (map double_of_int (digit_values s))) |}
  /\
  MultiplyVisitor_ProcessStringElement {| StringElement_value := s |}
    {| MultiplyVisitor_value := acc_product |}
  = Returns tt
      {| MultiplyVisitor_value :=
           dmul acc_product (double_product (map double_of_int (digit_values s))) |}
  /\
  (Z.of_nat (List.length (digit_values s)) < 10 ^ 15 ->
     double_sum (map double_of_int (digit_values s))
     = double_of_int (integer_sum (digit_values s))
     /\ (exact_value (double_sum (map double_of_int (digit_values s)))
         == inject_Z (integer_sum (digit_values s)))%Q)
  /\
  ((List.length (digit_values s) <= 16)%nat ->
     double_product (map double_of_int (digit_values s))
     = double_of_int (integer_product (digit_values s))
     /\ (exact_value (double_product (map double_of_int (digit_values s)))
         == inject_Z (integer_product (digit_values s)))%Q).
Proof.
  run_handler.
  rewrite accumulate_SumVisitor_lambda, accumulate_lambda_multiply.
  pose proof (digit_values_range s) as Hds.
  split; [reflexivity | split; [reflexivity | split]].
  - intro Hlen.
    pose proof (integer_sum_digits _ Hds) as Hsum.
    assert (H9 : 9 * 10 ^ 15 < 2 ^ 53) by reflexivity.
    assert (Heq : double_sum (map double_of_int (digit_values s))
                  = double_of_int (integer_sum (digit_values s))).
    { unfold double_sum. change (S754_zero false) with (double_of_int 0).
      rewrite fold_dadd_integers; [reflexivity | | lia | lia].
      eapply Forall_impl; [ | exact Hds]. cbv beta. intros; lia. }
    split; [exact Heq | ].
    rewrite Heq. apply double_of_int_exact. lia.
  - intro Hlen.
    assert (Hpow : 9 ^ Z.of_nat (List.length (digit_values s)) < 2 ^ 53).
    { apply Z.le_lt_trans with (9 ^ 16); [ | reflexivity].
      apply Z.pow_le_mono_r; lia. }
    assert (Heq : double_product (map double_of_int (digit_values s))
                  = double_of_int (integer_product (digit_values s))).
    { unfold double_product.
      change (S754_finite false 4503599627370496 (-52)) with (double_of_int 1).
      rewrite fold_dmul_digits; [now rewrite Z.mul_1_l | exact Hds | lia | ].
      now rewrite Z.mul_1_l. }
    split; [exact Heq | ].
    rewrite Heq. apply double_of_int_exact.
    pose proof (integer_product_digits _ Hds) as Hp. lia.
Qed.

Lemma text_handlers_digits_witness :
  (double_sum (map double_of_int (digit_values hello)) = double_of_int 45
   /\ (exact_value (double_sum (map double_of_int (digit_values hello)))
       == inject_Z 45)%Q)
  /\
  (double_product (map double_of_int (digit_values hello)) = double_of_int 362880
   /\ (exact_value (double_product (map double_of_int (digit_values hello)))
       == inject_Z 362880)%Q).
Proof.
  split.
  - refine (proj1 (proj2 (proj2 (text_handlers_digits hello one_half one_half))) _).
    reflexivity.
  - refine (proj2 (proj2 (proj2 (text_handlers_digits hello one_half one_half))) _).
    vm_compute. lia.
Defined.

(** C7 as stated fails on a string of eighteen nines: the product visitor,
    started at [1.0], ends at [150094635296999104], which is neither the
    product [9^18 = 150094635296999121] of the digit values nor the
    [double] nearest to it, [150094635296999136]. *)
Lemma product_text_not_exact :
  integer_product (digit_values eighteen_nines) = 150094635296999121
  /\ (exists v,
        MultiplyVisitor_ProcessStringElement {| StringElement_value := eighteen_nines |}
          {| MultiplyVisitor_value := double_of_int 1 |}
        = Returns tt {| MultiplyVisitor_value := v |}
        /\ (exact_value v == inject_Z 150094635296999104)%Q
        /\ ~ (exact_value v
              == inject_Z (integer_product (digit_values eighteen_nines)))%Q
        /\ v <> dmul (double_of_int 1)
                  (double_of_int (integer_product (digit_values eighteen_nines))))
  /\ (exact_value (double_of_int (integer_product (digit_values eighteen_nines)))
      == inject_Z 150094635296999136)%Q.
Proof.
  split; [reflexivity | split; [ | reflexivity]].
  eexists. split; [reflexivity | ].
  split; [reflexivity | split].
  - intro H. vm_compute in H. discriminate H.
  - vm_compute. discriminate.
Qed.

(** C8: on every string the text handler of the XOR visitor returns, the
    new accumulator is the old one XORed with the XOR of all character
    codes of the string, and [GetValue ()] stays between 0 and 255. *)
Theorem xor_text_handler (s : string) (v : XORVisitor) :
  0 <= XORVisitor_GetValue v <= 255 ->
  exists v',
    XORVisitor_ProcessStringElement {| StringElement_value := s |} v = Returns tt v'
    /\ XORVisitor_GetValue v' = Z.lxor (XORVisitor_GetValue v) (xor_of_codes s)
    /\ 0 <= XORVisitor_GetValue v' <= 255.
Proof.
  intro Hv. eexists. split; [reflexivity | ].
  unfold XORVisitor_GetValue in *. run_handler.
  rewrite accumulate_lambda_xor by lia. rewrite Z.lxor_0_l.
  rewrite (to_uchar_id (xor_of_codes s)) by auto with uchar.
  assert (0 <= Z.lxor (XORVisitor_value v) (xor_of_codes s) < 256) as Hx
    by (apply lxor_uchar; [lia | auto with uchar]).
  rewrite to_uchar_id by exact Hx. split; [reflexivity | lia].
Qed.

Lemma xor_text_handler_witness :
  exists v',
    XORVisitor_ProcessStringElement {| StringElement_value := hello |} XORVisitor_new
    = Returns tt v'
    /\ XORVisitor_GetValue v' = Z.lxor (XORVisitor_GetValue XORVisitor_new) (xor_of_codes hello)
    /\ 0 <= XORVisitor_GetValue v' <= 255.
Proof.
  apply (xor_text_handler hello XORVisitor_new). simpl. lia.
Defined.

(** ** Elements are passed by reference to const *)

Lemma with_const_ref_frame {E V A} (f : E -> M V A) (e : E) (v : V) :
  match with_const_ref f (e, v) with
  | Returns _ s | Throws _ s => fst s = e
  | Undefined => True
  end.
Proof.
  unfold with_const_ref. cbn [fst snd].
  destruct (f e v); cbn [fst]; auto.
Qed.

(** C10: for every visitor class and every element, [GetValue ()] of the
    element is the same after [Accept (visitor)] as before, whether the
    dispatch returns or throws. *)
Theorem accept_preserves_element (V : Type) (visitor_class : AbstractVisitor V) (v : V) :
  (forall e : SingleElement,
     match Accept (e, v) with
     | Returns _ s | Throws _ s => SingleElement_GetValue (fst s) = SingleElement_GetValue e
     | Undefined => True
     end)
  /\
  (forall e : ArrayElement,
     match Accept (e, v) with
     | Returns _ s | Throws _ s => ArrayElement_GetValue (fst s) = ArrayElement_GetValue e
     | Undefined => True
     end)
  /\
  (forall e : StringElement,
     match Accept (e, v) with
     | Returns _ s | Throws _ s => StringElement_GetValue (fst s) = StringElement_GetValue e
     | Undefined => True
     end).
Proof.
  repeat split; intro e; cbn [Accept SingleElement_is_element ArrayElement_is_element
    StringElement_is_element];
  unfold SingleElement_Accept, ArrayElement_Accept, StringElement_Accept.
  - pose proof (with_const_ref_frame ProcessSingleElement e v) as H.
    destruct (with_const_ref ProcessSingleElement (e, v)); auto; now rewrite H.
  - pose proof (with_const_ref_frame ProcessArrayElement e v) as H.
    destruct (with_const_ref ProcessArrayElement (e, v)); auto; now rewrite H.
  - pose proof (with_const_ref_frame ProcessStringElement e v) as H.
    destruct (with_const_ref ProcessStringElement (e, v)); auto; now rewrite H.
Qed.

(** ** The driver *)

(** The first element ends the traversal: the exception leaves
    [std::for_each]. *)
Lemma for_each_xor_single (e : SingleElement) (rest : list SingleElement) (v : XORVisitor) :
  for_each ForEachAdapter (e :: rest, v)
  = Throws {| what := "Error: Cannot apply XOR operation to SingleElement type" |}
      (e :: rest, v).
Proof. reflexivity. Qed.

Lemma single_xor_block_run (fr : frame) :
  single_element_list fr <> [] ->
  single_xor_block fr
  = Returns tt
      (store ref_cout
         (cout fr
            ++ [OutString "Error: Cannot apply XOR operation to SingleElement type"; OutEndl])
         fr).
Proof.
  destruct fr as [sl al se sv mv xv out]. cbn [single_element_list].
  destruct sl as [ | e rest]; [congruence | ].
  unfold single_xor_block, visit_list, try_catch, on.
  cbn [load store both ref_single_element_list ref_xor_visitor single_element_list
       xor_visitor fst snd].
  rewrite for_each_xor_single. reflexivity.
Qed.

(** C1 (amended): when the XOR visitor is dispatched over the batch of
    nine scalar elements, the first dispatch throws, the exception leaves
    [std::for_each] and is caught by the handler around the whole batch:
    one error line is printed, the accumulator remains 0 and the elements
    are unchanged. *)
Theorem single_xor_block_one_error (fr : frame) :
  List.length (single_element_list fr) = 9%nat ->
  XORVisitor_GetValue (xor_visitor fr) = 0 ->
  exists fr',
    single_xor_block fr = Returns tt fr'
    /\ cout fr' = cout fr
         ++ [OutString "Error: Cannot apply XOR operation to SingleElement type"; OutEndl]
    /\ error_lines (cout fr') = S (error_lines (cout fr))
    /\ XORVisitor_GetValue (xor_visitor fr') = 0
    /\ single_element_list fr' = single_element_list fr.
Proof.
  intros Hlen Hx.
  eexists. split.
  - apply single_xor_block_run. intro Hnil. rewrite Hnil in Hlen. discriminate.
  - cbn [store ref_cout cout xor_visitor single_element_list]. repeat split; auto.
    unfold error_lines. rewrite filter_app, length_app. simpl. lia.
Qed.

Lemma single_xor_block_one_error_witness :
  exists fr',
    single_xor_block (locals []) = Returns tt fr'
    /\ cout fr' = [OutString "Error: Cannot apply XOR operation to SingleElement type"; OutEndl]
    /\ error_lines (cout fr') = 1%nat
    /\ XORVisitor_GetValue (xor_visitor fr') = 0
    /\ single_element_list fr' = single_element_list (locals []).
Proof.
  exact (single_xor_block_one_error (locals []) eq_refl eq_refl).
Defined.

(** C1 as stated fails on the batch of [main]: the XOR block does not
    produce nine error lines. *)
Lemma single_xor_block_not_nine_errors :
  ~ (exists fr',
       single_xor_block (locals []) = Returns tt fr'
       /\ error_lines (cout fr') = 9%nat).
Proof.
  intros [fr' [Hrun Hn]].
  vm_compute in Hrun. injection Hrun as <-. vm_compute in Hn. discriminate.
Qed.

(** C9: [main] returns 0, whatever its arguments; no exception leaves
    it.  The theorem also gives everything it writes. *)
Theorem main_returns_zero (argc : Z) (argv : list string) (out : list output) :
  main argc argv out = Returns 0 (out ++ expected_output).
Proof.
  unfold main.
  assert (H : main_body (locals out)
              = Returns 0
                  {| single_element_list := single_element_list (locals out);
                     array_element_list := array_element_list (locals out);
                     string_element := string_element (locals out);
                     sum_visitor := SumVisitor_new;
                     multiply_visitor := MultiplyVisitor_new;
                     xor_visitor := XORVisitor_new;
                     cout := out ++ expected_output |}).
  { lazy -[app]. repeat rewrite <- app_assoc. reflexivity. }
  rewrite H. reflexivity.
Qed.

(** * Further properties *)

(** ** Conversions between [int] and [double] *)

Lemma integral_part_canonical s n :
  Zpos n < 2 ^ 53 -> integral_part (canonical s n) = Some (cond_Zopp s (Zpos n)).
Proof.
  intro Hn. apply digits2_pos_le_iff in Hn; [ | lia].
  unfold canonical, integral_part. f_equal. f_equal.
  set (j := 53 - Zpos (digits2_pos n)).
  rewrite Z.shiftl_div_pow2 by lia.
  rewrite Zpos_shiftl, Z2N.id, Z.opp_involutive by lia.
  apply Z.div_mul. apply Z.pow_nonzero; lia.
Qed.

Lemma in_int_range_bounds z : in_int_range z = true <-> INT_MIN <= z <= INT_MAX.
Proof.
  unfold in_int_range. rewrite andb_true_iff, !Z.leb_le. tauto.
Qed.

Lemma int_of_double_of_int z :
  in_int_range z = true -> int_of_double (double_of_int z) = Some z.
Proof.
  intro Hz. unfold int_of_double.
  assert (Hb : Z.abs z < 2 ^ 53).
  { apply in_int_range_bounds in Hz. unfold INT_MIN, INT_MAX in Hz. lia. }
  destruct z as [ | n | n].
  - reflexivity.
  - rewrite double_of_int_pos, integral_part_canonical by exact Hb.
    cbn [cond_Zopp]. now rewrite Hz.
  - rewrite double_of_int_neg, integral_part_canonical by exact Hb.
    cbn [cond_Zopp Z.opp]. now rewrite Hz.
Qed.

(** X1: an [int] converted to [double] and back is the same [int]; so on a
    scalar element that holds an integer value the scalar handlers of the
    sum and product visitors lose nothing: they add, respectively
    multiply by, the held value itself. *)
Theorem scalar_handlers_on_integers (z : Z) (acc_sum acc_product : double) :
  in_int_range z = true ->
  int_of_double (double_of_int z) = Some z
  /\
  SumVisitor_ProcessSingleElement {| SingleElement_value := double_of_int z |}
    {| SumVisitor_value := acc_sum |}
  = Returns tt {| SumVisitor_value := dadd acc_sum (double_of_int z) |}
  /\
  MultiplyVisitor_ProcessSingleElement {| SingleElement_value := double_of_int z |}
    {| MultiplyVisitor_value := acc_product |}
  = Returns tt {| MultiplyVisitor_value := dmul acc_product (double_of_int z) |}.
Proof.
  intro Hz. pose proof (int_of_double_of_int z Hz) as Hrt.
  run_handler. rewrite Hrt. repeat split.
Qed.

Lemma scalar_handlers_on_integers_witness :
  int_of_double (double_of_int (-7)) = Some (-7)
  /\
  SumVisitor_ProcessSingleElement {| SingleElement_value := double_of_int (-7) |}
    {| SumVisitor_value := one_half |}
  = Returns tt {| SumVisitor_value := dadd one_half (double_of_int (-7)) |}
  /\
  MultiplyVisitor_ProcessSingleElement {| SingleElement_value := double_of_int (-7) |}
    {| MultiplyVisitor_value := one_half |}
  = Returns tt {| MultiplyVisitor_value := dmul one_half (double_of_int (-7)) |}.
Proof.
  exact (scalar_handlers_on_integers (-7) one_half one_half eq_refl).
Defined.

Lemma int_of_double_defined x :
  int_of_double x = None
  <-> is_finite x = false \/ in_int_range (truncate (exact_value x)) = false.
Proof.
  unfold int_of_double.
  destruct (is_finite x) eqn:Hf.
  - rewrite (integral_part_truncate x Hf).
    destruct (in_int_range (truncate (exact_value x))); split; intro H.
    + discriminate.
    + destruct H; discriminate.
    + now right.
    + reflexivity.
  - destruct x; try discriminate; cbn [integral_part]; split; auto.
Qed.

(** X2: the scalar handlers of the sum and product visitors never throw,
    and their behaviour is undefined exactly when the held value is NaN,
    infinite, or truncates to a number outside the range of [int]. *)
Theorem scalar_handlers_undefined (x : double) (sv : SumVisitor) (mv : MultiplyVisitor) :
  (SumVisitor_ProcessSingleElement {| SingleElement_value := x |} sv = Undefined
   <-> is_finite x = false \/ in_int_range (truncate (exact_value x)) = false)
  /\
  (MultiplyVisitor_ProcessSingleElement {| SingleElement_value := x |} mv = Undefined
   <-> is_finite x = false \/ in_int_range (truncate (exact_value x)) = false)
  /\
  (forall e s, SumVisitor_ProcessSingleElement {| SingleElement_value := x |} sv
               <> Throws e s)
  /\
  (forall e s, MultiplyVisitor_ProcessSingleElement {| SingleElement_value := x |} mv
               <> Throws e s).
Proof.
  rewrite <- (int_of_double_defined x). run_handler.
  destruct (int_of_double x) as [z | ]; repeat split; intros; congruence.
Qed.

(** ** Truncation *)

Lemma truncate_bounds_Z n (d : positive) :
  Z.abs (n ÷ Zpos d) * Zpos d <= Z.abs n < (Z.abs (n ÷ Zpos d) + 1) * Zpos d.
Proof.
  rewrite <- (Z.quot_abs n (Zpos d)) by lia.
  change (Z.abs (Zpos d)) with (Zpos d).
  rewrite Z.quot_div_nonneg by lia.
  pose proof (Z.mul_div_le (Z.abs n) (Zpos d) ltac:(lia)).
  pose proof (Z.mul_succ_div_gt (Z.abs n) (Zpos d) ltac:(lia)).
  lia.
Qed.

Lemma truncate_sign n (d : positive) : 0 <= (n ÷ Zpos d) * n.
Proof.
  destruct (Z_le_gt_dec 0 n) as [Hn | Hn].
  - pose proof (Z.quot_pos n (Zpos d) Hn ltac:(lia)). nia.
  - replace n with (- (- n)) at 1 by lia.
    rewrite Z.quot_opp_l by lia.
    pose proof (Z.quot_pos (- n) (Zpos d) ltac:(lia) ltac:(lia)). nia.
Qed.

(** X3: the conversion to [int] in the scalar handlers rounds toward zero:
    the integer used is never larger in magnitude than the held value,
    differs from it by less than one, and never has the opposite sign. *)
Theorem int_of_double_toward_zero (x : double) (z : Z) :
  int_of_double x = Some z ->
  (Qabs (inject_Z z) <= Qabs (exact_value x))%Q
  /\ (Qabs (exact_value x) < Qabs (inject_Z z) + 1)%Q
  /\ 0 <= z * Qnum (exact_value x).
Proof.
  intro Hz.
  assert (Hf : is_finite x = true).
  { destruct (is_finite x) eqn:Hf; [reflexivity | ].
    assert (int_of_double x = None) by (apply int_of_double_defined; now left).
    congruence. }
  unfold int_of_double in Hz. rewrite (integral_part_truncate x Hf) in Hz.
  destruct (in_int_range (truncate (exact_value x))); [ | discriminate].
  injection Hz as <-.
  destruct (exact_value x) as [n d]. unfold truncate. cbn [Qnum Qden].
  pose proof (truncate_bounds_Z n d) as [Hlo Hhi].
  pose proof (truncate_sign n d) as Hs.
  repeat split.
  - unfold Qle. cbn. lia.
  - unfold Qlt. cbn. lia.
  - exact Hs.
Qed.

Lemma int_of_double_toward_zero_witness :
  (Qabs (inject_Z 2) <= Qabs (exact_value two_point_75))%Q
  /\ (Qabs (exact_value two_point_75) < Qabs (inject_Z 2) + 1)%Q
  /\ 0 <= 2 * Qnum (exact_value two_point_75).
Proof.
  exact (int_of_double_toward_zero two_point_75 2 eq_refl).
Defined.

(** ** Values that contribute nothing, values that collapse the product *)

(** [x + 0.0] is [x], except that [-0.0 + 0.0] is [0.0]. *)
Lemma dadd_zero_r x : x <> S754_zero true -> dadd x (S754_zero false) = x.
Proof.
  intro Hx. destruct x as [[] | s | | s m e]; try reflexivity.
  now elim Hx.
Qed.

(** A finite [x] times [0.0] is a zero with the sign of [x]. *)
Lemma dmul_zero_r x :
  is_finite x = true -> dmul x (S754_zero false) = S754_zero (sign_bit x).
Proof.
  destruct x as [s | s | | s m e]; try discriminate; intros _;
    cbn [dmul SFmul sign_bit]; unfold dmul, SFmul; now rewrite xorb_false_r.
Qed.

Lemma truncate_small q : (Qabs q < 1)%Q -> truncate q = 0.
Proof.
  destruct q as [n d]. unfold Qlt, truncate. cbn. intro H.
  apply Z.abs_0_iff. rewrite <- Z.quot_abs by lia.
  apply Z.quot_small. change (Z.abs (Zpos d)) with (Zpos d). lia.
Qed.

(** X4: a scalar element whose value is smaller than one in magnitude
    counts as zero: the sum visitor keeps its accumulator (unless it is
    [-0.0]) and the product visitor, when finite, falls to zero. *)
Theorem scalar_handlers_below_one (x acc_sum acc_product : double) :
  is_finite x = true ->
  (Qabs (exact_value x) < 1)%Q ->
  (acc_sum <> S754_zero true ->
   SumVisitor_ProcessSingleElement {| SingleElement_value := x |}
     {| SumVisitor_value := acc_sum |}
   = Returns tt {| SumVisitor_value := acc_sum |})
  /\
  (is_finite acc_product = true ->
   MultiplyVisitor_ProcessSingleElement {| SingleElement_value := x |}
     {| MultiplyVisitor_value := acc_product |}
   = Returns tt {| MultiplyVisitor_value := S754_zero (sign_bit acc_product) |}).
Proof.
  intros Hf Hx.
  assert (Hz : int_of_double x = Some 0).
  { rewrite <- (truncate_small _ Hx). apply int_of_double_truncate; [exact Hf | ].
    now rewrite (truncate_small _ Hx). }
  run_handler. rewrite Hz. change (double_of_int 0) with (S754_zero false).
  split; intro H.
  - now rewrite dadd_zero_r.
  - now rewrite dmul_zero_r.
Qed.

Lemma scalar_handlers_below_one_witness :
  SumVisitor_ProcessSingleElement {| SingleElement_value := one_half |}
    {| SumVisitor_value := double_of_int 45 |}
  = Returns tt {| SumVisitor_value := double_of_int 45 |}
  /\
  MultiplyVisitor_ProcessSingleElement {| SingleElement_value := one_half |}
    {| MultiplyVisitor_value := double_of_int 362880 |}
  = Returns tt {| MultiplyVisitor_value := S754_zero false |}.
Proof.
  pose proof (scalar_handlers_below_one one_half (double_of_int 45) (double_of_int 362880)
                eq_refl eq_refl) as [Hs Hp].
  split.
  - apply Hs. discriminate.
  - apply Hp. reflexivity.
Defined.

(** X5: an empty sequence and a string without digits add [0.0]: the sum
    visitor keeps its accumulator, except that [-0.0] becomes [0.0]; a
    string without digits multiplies by [1.0] and the product visitor
    keeps its accumulator. *)
Theorem nothing_to_accumulate (s : string) (acc : double) :
  digit_values s = [] ->
  (acc <> S754_zero true ->
   SumVisitor_ProcessArrayElement {| ArrayElement_value := [] |}
     {| SumVisitor_value := acc |}
   = Returns tt {| SumVisitor_value := acc |}
   /\
   SumVisitor_ProcessStringElement {| StringElement_value := s |}
     {| SumVisitor_value := acc |}
   = Returns tt {| SumVisitor_value := acc |})
  /\
  (SumVisitor_ProcessArrayElement {| ArrayElement_value := [] |}
     {| SumVisitor_value := S754_zero true |}
   = Returns tt {| SumVisitor_value := S754_zero false |}
   /\
   SumVisitor_ProcessStringElement {| StringElement_value := s |}
     {| SumVisitor_value := S754_zero true |}
   = Returns tt {| SumVisitor_value := S754_zero false |})
  /\
  (dvalid acc ->
   MultiplyVisitor_ProcessStringElement {| StringElement_value := s |}
     {| MultiplyVisitor_value := acc |}
   = Returns tt {| MultiplyVisitor_value := acc |}).
Proof.
  intro Hs. run_handler.
  rewrite accumulate_SumVisitor_lambda, accumulate_lambda_multiply, Hs.
  unfold accumulate. cbn [map fold_left].
  change (double_of_int 0) with (S754_zero false).
  split; [ | split].
  - intro Hacc. now rewrite dadd_zero_r.
  - split; reflexivity.
  - intro Hacc. now rewrite dmul_one_r.
Qed.

Lemma nothing_to_accumulate_witness :
  (SumVisitor_ProcessArrayElement {| ArrayElement_value := [] |}
     {| SumVisitor_value := one_half |}
   = Returns tt {| SumVisitor_value := one_half |}
   /\
   SumVisitor_ProcessStringElement {| StringElement_value := "Hello World" |}
     {| SumVisitor_value := one_half |}
   = Returns tt {| SumVisitor_value := one_half |})
  /\
  MultiplyVisitor_ProcessStringElement {| StringElement_value := "Hello World" |}
    {| MultiplyVisitor_value := one_half |}
  = Returns tt {| MultiplyVisitor_value := one_half |}.
Proof.
  pose proof (nothing_to_accumulate "Hello World" one_half eq_refl) as [Hs [_ Hp]].
  split.
  - apply Hs. discriminate.
  - apply Hp. reflexivity.
Defined.

Lemma double_product_digits ds :
  Forall (fun d => 0 <= d <= 9) ds ->
  (List.length ds <= 16)%nat ->
  double_product (map double_of_int ds) = double_of_int (integer_product ds).
Proof.
  intros Hds Hlen. unfold double_product.
  change (S754_finite false 4503599627370496 (-52)) with (double_of_int 1).
  rewrite fold_dmul_digits; [now rewrite Z.mul_1_l | exact Hds | lia | ].
  rewrite Z.mul_1_l.
  apply Z.le_lt_trans with (9 ^ 16); [ | reflexivity].
  apply Z.pow_le_mono_r; lia.
Qed.

Lemma integer_product_zero ds : In 0 ds -> integer_product ds = 0.
Proof.
  induction ds as [ | d ds IH]; intro H; [contradiction | ].
  rewrite integer_product_cons. destruct H as [-> | H]; [lia | ].
  rewrite IH by exact H. lia.
Qed.

(** X6: one digit ['0'] in a string of at most 16 digits collapses the
    product, wherever it stands: the text handler of the product visitor
    turns a finite accumulator into a zero of the same sign. *)
Theorem zero_digit_collapses_product (s : string) (acc : double) :
  (List.length (digit_values s) <= 16)%nat ->
  In 0 (digit_values s) ->
  is_finite acc = true ->
  MultiplyVisitor_ProcessStringElement {| StringElement_value := s |}
    {| MultiplyVisitor_value := acc |}
  = Returns tt {| MultiplyVisitor_value := S754_zero (sign_bit acc) |}.
Proof.
  intros Hlen H0 Hacc. run_handler.
  rewrite accumulate_lambda_multiply.
  change (double_of_int 1) with (S754_finite false 4503599627370496 (-52)).
  fold (double_product (map double_of_int (digit_values s))).
  rewrite double_product_digits by (apply digit_values_range || exact Hlen).
  rewrite integer_product_zero by exact H0.
  change (double_of_int 0) with (S754_zero false).
  now rewrite dmul_zero_r.
Qed.

Lemma zero_digit_collapses_product_witness :
  MultiplyVisitor_ProcessStringElement {| StringElement_value := "a1b0c9" |}
    {| MultiplyVisitor_value := double_of_int 362880 |}
  = Returns tt {| MultiplyVisitor_value := S754_zero false |}.
Proof.
  refine (zero_digit_collapses_product "a1b0c9" (double_of_int 362880) _ _ eq_refl).
  - vm_compute. lia.
  - vm_compute. auto.
Defined.

(** ** The checksum of the XOR visitor *)

Lemma xor_of_codes_app s1 s2 :
  xor_of_codes (s1 ++ s2) = Z.lxor (xor_of_codes s1) (xor_of_codes s2).
Proof.
  induction s1 as [ | c s1 IH]; cbn [append xor_of_codes].
  - now rewrite Z.lxor_0_l.
  - rewrite IH. now rewrite Z.lxor_assoc.
Qed.

Lemma XORVisitor_ProcessStringElement_run s v :
  0 <= XORVisitor_value v <= 255 ->
  XORVisitor_ProcessStringElement {| StringElement_value := s |} v
  = Returns tt {| XORVisitor_value := Z.lxor (XORVisitor_value v) (xor_of_codes s) |}.
Proof.
  intro Hv. run_handler.
  rewrite accumulate_lambda_xor by lia. rewrite Z.lxor_0_l.
  rewrite (to_uchar_id (xor_of_codes s)) by auto with uchar.
  rewrite to_uchar_id by (apply lxor_uchar; [lia | auto with uchar]).
  reflexivity.
Qed.

Lemma XORVisitor_value_after_string s v :
  0 <= XORVisitor_value v <= 255 ->
  0 <= Z.lxor (XORVisitor_value v) (xor_of_codes s) <= 255.
Proof.
  intro Hv.
  assert (0 <= Z.lxor (XORVisitor_value v) (xor_of_codes s) < 256)
    by (apply lxor_uchar; [lia | auto with uchar]).
  lia.
Qed.

(** X7: dispatching the XOR visitor twice to the same text element
    restores the accumulator: the second pass cancels the first. *)
Theorem xor_text_twice_cancels (s : string) (v : XORVisitor) :
  0 <= XORVisitor_GetValue v <= 255 ->
  (XORVisitor_ProcessStringElement {| StringElement_value := s |} ;;
   XORVisitor_ProcessStringElement {| StringElement_value := s |}) v
  = Returns tt v.
Proof.
  unfold XORVisitor_GetValue. intro Hv. unfold bind.
  rewrite XORVisitor_ProcessStringElement_run by exact Hv.
  rewrite XORVisitor_ProcessStringElement_run
    by (cbn [XORVisitor_value]; now apply XORVisitor_value_after_string).
  cbn [XORVisitor_value].
  rewrite Z.lxor_assoc, Z.lxor_nilpotent, Z.lxor_0_r.
  now destruct v.
Qed.

Lemma xor_text_twice_cancels_witness :
  (XORVisitor_ProcessStringElement {| StringElement_value := hello |} ;;
   XORVisitor_ProcessStringElement {| StringElement_value := hello |})
    {| XORVisitor_value := 51 |}
  = Returns tt {| XORVisitor_value := 51 |}.
Proof.
  apply (xor_text_twice_cancels hello {| XORVisitor_value := 51 |}).
  unfold XORVisitor_GetValue. cbn [XORVisitor_value]. lia.
Defined.

(** X8: for the XOR visitor two text elements dispatched one after the
    other count as their concatenation, and their order does not matter. *)
Theorem xor_text_concatenation (s1 s2 : string) (v : XORVisitor) :
  0 <= XORVisitor_GetValue v <= 255 ->
  (XORVisitor_ProcessStringElement {| StringElement_value := s1 |} ;;
   XORVisitor_ProcessStringElement {| StringElement_value := s2 |}) v
  = XORVisitor_ProcessStringElement {| StringElement_value := (s1 ++ s2)%string |} v
  /\
  (XORVisitor_ProcessStringElement {| StringElement_value := s1 |} ;;
   XORVisitor_ProcessStringElement {| StringElement_value := s2 |}) v
  = (XORVisitor_ProcessStringElement {| StringElement_value := s2 |} ;;
     XORVisitor_ProcessStringElement {| StringElement_value := s1 |}) v.
Proof.
  unfold XORVisitor_GetValue. intro Hv. unfold bind.
  rewrite !(XORVisitor_ProcessStringElement_run _ v) by exact Hv.
  rewrite !XORVisitor_ProcessStringElement_run
    by (cbn [XORVisitor_value]; now apply XORVisitor_value_after_string).
  cbn [XORVisitor_value]. rewrite xor_of_codes_app, !Z.lxor_assoc.
  split; [reflexivity | ].
  now rewrite (Z.lxor_comm (xor_of_codes s1)).
Qed.

Lemma xor_text_concatenation_witness :
  (XORVisitor_ProcessStringElement {| StringElement_value := "Hello" |} ;;
   XORVisitor_ProcessStringElement {| StringElement_value := " World" |}) XORVisitor_new
  = XORVisitor_ProcessStringElement {| StringElement_value := "Hello World" |} XORVisitor_new
  /\
  (XORVisitor_ProcessStringElement {| StringElement_value := "Hello" |} ;;
   XORVisitor_ProcessStringElement {| StringElement_value := " World" |}) XORVisitor_new
  = (XORVisitor_ProcessStringElement {| StringElement_value := " World" |} ;;
     XORVisitor_ProcessStringElement {| StringElement_value := "Hello" |}) XORVisitor_new.
Proof.
  apply (xor_text_concatenation "Hello" " World" XORVisitor_new).
  unfold XORVisitor_GetValue. cbn. lia.
Defined.

Lemma XORVisitor_do_range c v :
  0 <= XORVisitor_value v <= 255 ->
  0 <= XORVisitor_value (state_after (XORVisitor_do c v) v) <= 255.
Proof.
  intro Hv. destruct c as [e | e | [s] | ]; cbn [XORVisitor_do ProcessSingleElement
    ProcessArrayElement ProcessStringElement XORVisitor_is_visitor].
  - exact Hv.
  - exact Hv.
  - rewrite XORVisitor_ProcessStringElement_run by exact Hv.
    cbn [state_after XORVisitor_value]. now apply XORVisitor_value_after_string.
  - cbn. lia.
Qed.

Lemma XORVisitor_after_app pre post v :
  XORVisitor_after (pre ++ post) v = XORVisitor_after post (XORVisitor_after pre v).
Proof. unfold XORVisitor_after. apply fold_left_app. Qed.

(** X9: whatever calls a client makes on an XOR visitor, and in whatever
    order (dispatches that fail included, resets included), [GetValue ()]
    is between 0 and 255; and a dispatch to a scalar or sequence element
    leaves no trace in the history: the visitor ends as if that call had
    not been made. *)
Theorem XORVisitor_history (pre post : list XORVisitor_call) :
  0 <= XORVisitor_GetValue (XORVisitor_after pre XORVisitor_new) <= 255
  /\
  (forall e : SingleElement,
     XORVisitor_after (pre ++ CallSingle e :: post) XORVisitor_new
     = XORVisitor_after (pre ++ post) XORVisitor_new)
  /\
  (forall e : ArrayElement,
     XORVisitor_after (pre ++ CallArray e :: post) XORVisitor_new
     = XORVisitor_after (pre ++ post) XORVisitor_new).
Proof.
  split; [ | split].
  - unfold XORVisitor_GetValue, XORVisitor_after.
    assert (H : forall calls v, 0 <= XORVisitor_value v <= 255 ->
                0 <= XORVisitor_value
                       (fold_left (fun v c => state_after (XORVisitor_do c v) v) calls v)
                  <= 255).
    { induction calls as [ | c' calls IH]; intros v Hv; [exact Hv | ].
      cbn [fold_left]. apply IH. now apply XORVisitor_do_range. }
    apply H. cbn. lia.
  - intro e. now rewrite !XORVisitor_after_app.
  - intro e. now rewrite !XORVisitor_after_app.
Qed.

(** ** [std::for_each] over a list of elements *)

Lemma for_each_cons {E S} (f : M (E * S) unit) (e : E) (rest : list E) (s : S) :
  for_each f (e :: rest, s)
  = match f (e, s) with
    | Returns _ (e', s') =>
        match for_each f (rest, s') with
        | Returns _ (rest', s'') => Returns tt (e' :: rest', s'')
        | Throws x (rest', s'') => Throws x (e' :: rest', s'')
        | Undefined => Undefined
        end
    | Throws x (e', s') => Throws x (e' :: rest, s')
    | Undefined => Undefined
    end.
Proof. reflexivity. Qed.

Section ForEachHandler.

(** A handler that, on the elements accepted by [p], returns after the
    update [g] of the visitor, and whose behaviour is undefined on the
    others. *)
Context {E V : Type}.
Variable h : E -> M V unit.
Variable p : E -> bool.
Variable g : E -> V -> V.
Hypothesis h_spec : forall e v, h e v = if p e then Returns tt (g e v) else Undefined.

Lemma for_each_handler (l : list E) : forall v,
  for_each (with_const_ref h) (l, v)
  = if forallb p l then Returns tt (l, fold_left (fun v e => g e v) l v) else Undefined.
Proof.
  induction l as [ | e l IH]; intro v; [reflexivity | ].
  rewrite for_each_cons. unfold with_const_ref at 1. cbn [fst snd forallb fold_left].
  rewrite h_spec. destruct (p e); [ | reflexivity].
  cbn [andb]. rewrite IH. now destruct (forallb p l).
Qed.

End ForEachHandler.



Lemma for_each_app_throw {E V} (h : E -> M V unit) (g : E -> V -> V)
    (pre post : list E) (e : E) (x : runtime_error) : forall (v v' : V),
  (forall e0, In e0 pre -> forall v0, h e0 v0 = Returns tt (g e0 v0)) ->
  h e (fold_left (fun v e => g e v) pre v) = Throws x v' ->
  for_each (with_const_ref h) (pre ++ e :: post, v)
  = Throws x (pre ++ e :: post, v').
Proof.
  induction pre as [ | e0 pre IH]; intros v v' Hpre He.
  - cbn [app fold_left] in *. rewrite for_each_cons.
    unfold with_const_ref. cbn [fst snd]. now rewrite He.
  - cbn [app]. rewrite for_each_cons. unfold with_const_ref at 1. cbn [fst snd].
    rewrite (Hpre e0) by (now left).
    rewrite (IH (g e0 v) v'); [reflexivity | | exact He].
    intros e1 H1. apply Hpre. now right.
Qed.

(** X11: [std::for_each] stops at the first dispatch that throws: the
    elements before it have been dispatched, those after it are not, the
    exception leaves the loop with the visitor as the throw left it, and no
    element has changed. *)
Theorem for_each_stops_at_throw {E V} (h : E -> M V unit) (g : E -> V -> V)
    (pre post : list E) (e : E) (x : runtime_error) (v v' : V) :
  (forall e0, In e0 pre -> forall v0, h e0 v0 = Returns tt (g e0 v0)) ->
  h e (fold_left (fun v e => g e v) pre v) = Throws x v' ->
  for_each (with_const_ref h) (pre ++ e :: post, v)
  = Throws x (pre ++ e :: post, v').
Proof. apply for_each_app_throw. Qed.

Lemma for_each_stops_at_throw_witness :
  let h := fun (e : ArrayElement) =>
             match ArrayElement_GetValue e with
             | [] => throw {| what := "empty" |}
             | _ => SumVisitor_ProcessArrayElement e
             end in
  for_each (with_const_ref h)
    ([ {| ArrayElement_value := [one_half] |} ]
       ++ {| ArrayElement_value := [] |} :: [ {| ArrayElement_value := [one_half] |} ],
     SumVisitor_new)
  = Throws {| what := "empty" |}
      ([ {| ArrayElement_value := [one_half] |} ]
         ++ {| ArrayElement_value := [] |} :: [ {| ArrayElement_value := [one_half] |} ],
       {| SumVisitor_value := one_half |}).
Proof.
  intro h.
  refine (for_each_stops_at_throw h
            (fun e v => {| SumVisitor_value :=
                             dadd (SumVisitor_value v)
                               (accumulate (ArrayElement_GetValue e) (double_of_int 0) dadd) |})
            [ {| ArrayElement_value := [one_half] |} ]
            [ {| ArrayElement_value := [one_half] |} ]
            {| ArrayElement_value := [] |}
            _ SumVisitor_new _ _ eq_refl).
  intros e0 [<- | []] v0. reflexivity.
Defined.

(** ** Batches of integer values *)

Lemma integer_sum_app l1 l2 : integer_sum (l1 ++ l2) = integer_sum l1 + integer_sum l2.
Proof.
  induction l1 as [ | z l1 IH]; [reflexivity | ].
  cbn [app]. rewrite !integer_sum_cons, IH. lia.
Qed.

Lemma integer_product_app l1 l2 :
  integer_product (l1 ++ l2) = integer_product l1 * integer_product l2.
Proof.
  induction l1 as [ | z l1 IH]; [cbn [app]; change (integer_product []) with 1; lia | ].
  cbn [app]. rewrite !integer_product_cons, IH. ring.
Qed.

(** The elements [main] would build from integer values. *)
Lemma for_each_sum_scalars zs : forall a,
  Forall (fun z => 0 <= z <= INT_MAX) zs ->
  0 <= a ->
  a + integer_sum zs < 2 ^ 53 ->
  for_each ForEachAdapter
    (map (fun z => {| SingleElement_value := double_of_int z |}) zs,
     {| SumVisitor_value := double_of_int a |})
  = Returns tt
      (map (fun z => {| SingleElement_value := double_of_int z |}) zs,
       {| SumVisitor_value := double_of_int (a + integer_sum zs) |}).
Proof.
  induction zs as [ | z zs IH]; intros a Hzs Ha Hsum.
  - cbn. now rewrite Z.add_0_r.
  - inversion Hzs as [ | ? ? Hz Hrest]; subst.
    assert (Hnn : 0 <= integer_sum zs).
    { apply integer_sum_nonneg. eapply Forall_impl; [ | exact Hrest].
      cbv beta. intros; lia. }
    rewrite integer_sum_cons in *.
    cbn [map]. rewrite for_each_cons.
    change (ForEachAdapter ({| SingleElement_value := double_of_int z |},
                            {| SumVisitor_value := double_of_int a |}))
      with (with_const_ref SumVisitor_ProcessSingleElement
              ({| SingleElement_value := double_of_int z |},
               {| SumVisitor_value := double_of_int a |})).
    unfold with_const_ref. cbn [fst snd]. run_handler.
    rewrite int_of_double_of_int
      by (apply in_int_range_bounds; unfold INT_MIN; lia).
    cbv beta iota. cbn [SumVisitor_value].
    rewrite dadd_int_exact by lia.
    rewrite IH by (assumption || lia).
    now rewrite Z.add_assoc.
Qed.

Lemma for_each_sum_arrays zss : forall a,
  Forall (Forall (fun z => 0 <= z)) zss ->
  0 <= a ->
  a + integer_sum (List.concat zss) < 2 ^ 53 ->
  for_each ForEachAdapter
    (map (fun zs => {| ArrayElement_value := map double_of_int zs |}) zss,
     {| SumVisitor_value := double_of_int a |})
  = Returns tt
      (map (fun zs => {| ArrayElement_value := map double_of_int zs |}) zss,
       {| SumVisitor_value := double_of_int (a + integer_sum (List.concat zss)) |}).
Proof.
  induction zss as [ | zs zss IH]; intros a Hzss Ha Hsum.
  - cbn. now rewrite Z.add_0_r.
  - inversion Hzss as [ | ? ? Hzs Hrest]; subst.
    assert (Hnn : 0 <= integer_sum (List.concat zss)).
    { apply integer_sum_nonneg. now apply Forall_concat. }
    pose proof (integer_sum_nonneg zs Hzs) as Hnn'.
    cbn [List.concat] in *. rewrite integer_sum_app in *.
    cbn [map]. rewrite for_each_cons.
    change (ForEachAdapter ({| ArrayElement_value := map double_of_int zs |},
                            {| SumVisitor_value := double_of_int a |}))
      with (with_const_ref SumVisitor_ProcessArrayElement
              ({| ArrayElement_value := map double_of_int zs |},
               {| SumVisitor_value := double_of_int a |})).
    unfold with_const_ref. cbn [fst snd]. run_handler. unfold accumulate.
    rewrite (fold_dadd_integers zs 0) by (assumption || lia).
    cbv beta iota. cbn [SumVisitor_value]. rewrite Z.add_0_l.
    rewrite dadd_int_exact by lia.
    rewrite IH by (assumption || lia).
    now rewrite Z.add_assoc.
Qed.

(** X12: over non-negative [int] values whose sum stays below [2^53], the
    batch of scalar elements and the batch of sequence elements give the
    sum visitor the same result, however the values are grouped: the
    accumulator grows by exactly their integer sum. *)
Theorem sum_batches_agree (zss : list (list Z)) (a : Z) :
  Forall (fun z => 0 <= z <= INT_MAX) (List.concat zss) ->
  0 <= a ->
  a + integer_sum (List.concat zss) < 2 ^ 53 ->
  for_each ForEachAdapter
    (map (fun z => {| SingleElement_value := double_of_int z |}) (List.concat zss),
     {| SumVisitor_value := double_of_int a |})
  = Returns tt
      (map (fun z => {| SingleElement_value := double_of_int z |}) (List.concat zss),
       {| SumVisitor_value := double_of_int (a + integer_sum (List.concat zss)) |})
  /\
  for_each ForEachAdapter
    (map (fun zs => {| ArrayElement_value := map double_of_int zs |}) zss,
     {| SumVisitor_value := double_of_int a |})
  = Returns tt
      (map (fun zs => {| ArrayElement_value := map double_of_int zs |}) zss,
       {| SumVisitor_value := double_of_int (a + integer_sum (List.concat zss)) |}).
Proof.
  intros Hz Ha Hsum. split.
  - now apply for_each_sum_scalars.
  - apply for_each_sum_arrays; [ | exact Ha | exact Hsum].
    apply Forall_concat in Hz. eapply Forall_impl; [ | exact Hz].
    intros zs Hzs. eapply Forall_impl; [ | exact Hzs]. cbv beta. intros; lia.
Qed.

Lemma sum_batches_agree_witness :
  for_each ForEachAdapter
    (map (fun z => {| SingleElement_value := double_of_int z |}) [1; 2; 3; 4],
     {| SumVisitor_value := double_of_int 0 |})
  = Returns tt
      (map (fun z => {| SingleElement_value := double_of_int z |}) [1; 2; 3; 4],
       {| SumVisitor_value := double_of_int 10 |})
  /\
  for_each ForEachAdapter
    (map (fun zs => {| ArrayElement_value := map double_of_int zs |}) [[1]; [2; 3]; [4]],
     {| SumVisitor_value := double_of_int 0 |})
  = Returns tt
      (map (fun zs => {| ArrayElement_value := map double_of_int zs |}) [[1]; [2; 3]; [4]],
       {| SumVisitor_value := double_of_int 10 |}).
Proof.
  refine (sum_batches_agree [[1]; [2; 3]; [4]] 0 _ _ _).
  - repeat constructor; unfold INT_MAX; lia.
  - lia.
  - reflexivity.
Defined.

Lemma for_each_multiply_scalars zs : forall p,
  Forall (fun z => 1 <= z <= INT_MAX) zs ->
  1 <= p ->
  p * integer_product zs < 2 ^ 53 ->
  for_each ForEachAdapter
    (map (fun z => {| SingleElement_value := double_of_int z |}) zs,
     {| MultiplyVisitor_value := double_of_int p |})
  = Returns tt
      (map (fun z => {| SingleElement_value := double_of_int z |}) zs,
       {| MultiplyVisitor_value := double_of_int (p * integer_product zs) |}).
Proof.
  induction zs as [ | z zs IH]; intros p Hzs Hp Hprod.
  - cbn. now rewrite Z.mul_1_r.
  - inversion Hzs as [ | ? ? Hz Hrest]; subst.
    assert (Hnn : 1 <= integer_product zs).
    { apply integer_product_pos. eapply Forall_impl; [ | exact Hrest].
      cbv beta. intros; lia. }
    rewrite integer_product_cons in *.
    cbn [map]. rewrite for_each_cons.
    change (ForEachAdapter ({| SingleElement_value := double_of_int z |},
                            {| MultiplyVisitor_value := double_of_int p |}))
      with (with_const_ref MultiplyVisitor_ProcessSingleElement
              ({| SingleElement_value := double_of_int z |},
               {| MultiplyVisitor_value := double_of_int p |})).
    unfold with_const_ref. cbn [fst snd]. run_handler.
    rewrite int_of_double_of_int
      by (apply in_int_range_bounds; unfold INT_MIN; lia).
    cbv beta iota. cbn [MultiplyVisitor_value].
    rewrite dmul_int_exact by nia.
    rewrite IH by (assumption || nia).
    now rewrite Z.mul_assoc.
Qed.

Lemma for_each_multiply_arrays zss : forall p,
  Forall (Forall (fun z => 1 <= z)) zss ->
  1 <= p ->
  p * integer_product (List.concat zss) < 2 ^ 53 ->
  for_each ForEachAdapter
    (map (fun zs => {| ArrayElement_value := map double_of_int zs |}) zss,
     {| MultiplyVisitor_value := double_of_int p |})
  = Returns tt
      (map (fun zs => {| ArrayElement_value := map double_of_int zs |}) zss,
       {| MultiplyVisitor_value := double_of_int (p * integer_product (List.concat zss)) |}).
Proof.
  induction zss as [ | zs zss IH]; intros p Hzss Hp Hprod.
  - cbn. now rewrite Z.mul_1_r.
  - inversion Hzss as [ | ? ? Hzs Hrest]; subst.
    assert (Hnn : 1 <= integer_product (List.concat zss)).
    { apply integer_product_pos. now apply Forall_concat. }
    pose proof (integer_product_pos zs Hzs) as Hnn'.
    cbn [List.concat] in *. rewrite integer_product_app in *.
    cbn [map]. rewrite for_each_cons.
    change (ForEachAdapter ({| ArrayElement_value := map double_of_int zs |},
                            {| MultiplyVisitor_value := double_of_int p |}))
      with (with_const_ref MultiplyVisitor_ProcessArrayElement
              ({| ArrayElement_value := map double_of_int zs |},
               {| MultiplyVisitor_value := double_of_int p |})).
    unfold with_const_ref. cbn [fst snd]. run_handler. unfold accumulate.
    change (fold_left MultiplyVisitor_lambda (map double_of_int zs) (double_of_int 1))
      with (fold_left dmul (map double_of_int zs) (double_of_int 1)).
    rewrite (fold_dmul_integers zs 1) by (assumption || nia).
    cbv beta iota. cbn [MultiplyVisitor_value]. rewrite Z.mul_1_l.
    rewrite dmul_int_exact by nia.
    rewrite IH by (assumption || nia).
    now rewrite Z.mul_assoc.
Qed.

(** X13: over positive [int] values whose product stays below [2^53], the
    batch of scalar elements and the batch of sequence elements give the
    product visitor the same result, however the values are grouped: the
    accumulator is multiplied by exactly their integer product. *)
Theorem product_batches_agree (zss : list (list Z)) (p : Z) :
  Forall (fun z => 1 <= z <= INT_MAX) (List.concat zss) ->
  1 <= p ->
  p * integer_product (List.concat zss) < 2 ^ 53 ->
  for_each ForEachAdapter
    (map (fun z => {| SingleElement_value := double_of_int z |}) (List.concat zss),
     {| MultiplyVisitor_value := double_of_int p |})
  = Returns tt
      (map (fun z => {| SingleElement_value := double_of_int z |}) (List.concat zss),
       {| MultiplyVisitor_value := double_of_int (p * integer_product (List.concat zss)) |})
  /\
  for_each ForEachAdapter
    (map (fun zs => {| ArrayElement_value := map double_of_int zs |}) zss,
     {| MultiplyVisitor_value := double_of_int p |})
  = Returns tt
      (map (fun zs => {| ArrayElement_value := map double_of_int zs |}) zss,
       {| MultiplyVisitor_value := double_of_int (p * integer_product (List.concat zss)) |}).
Proof.
  intros Hz Hp Hprod. split.
  - now apply for_each_multiply_scalars.
  - apply for_each_multiply_arrays; [ | exact Hp | exact Hprod].
    apply Forall_concat in Hz. eapply Forall_impl; [ | exact Hz].
    intros zs Hzs. eapply Forall_impl; [ | exact Hzs]. cbv beta. intros; lia.
Qed.

Lemma product_batches_agree_witness :
  for_each ForEachAdapter
    (map (fun z => {| SingleElement_value := double_of_int z |}) [1; 2; 3; 4],
     {| MultiplyVisitor_value := double_of_int 1 |})
  = Returns tt
      (map (fun z => {| SingleElement_value := double_of_int z |}) [1; 2; 3; 4],
       {| MultiplyVisitor_value := double_of_int 24 |})
  /\
  for_each ForEachAdapter
    (map (fun zs => {| ArrayElement_value := map double_of_int zs |}) [[1]; [2; 3]; [4]],
     {| MultiplyVisitor_value := double_of_int 1 |})
  = Returns tt
      (map (fun zs => {| ArrayElement_value := map double_of_int zs |}) [[1]; [2; 3]; [4]],
       {| MultiplyVisitor_value := double_of_int 24 |}).
Proof.
  refine (product_batches_agree [[1]; [2; 3]; [4]] 1 _ _ _).
  - repeat constructor; unfold INT_MAX; lia.
  - lia.
  - reflexivity.
Defined.

(** ** The driver on any data *)

Lemma error_lines_app out1 out2 :
  error_lines (out1 ++ out2) = (error_lines out1 + error_lines out2)%nat.
Proof. unfold error_lines. now rewrite filter_app, length_app. Qed.

Lemma driver_step_refl fr : driver_step fr fr 0.
Proof.
  repeat split. exists []. split; [now rewrite app_nil_r | reflexivity].
Qed.

Lemma driver_step_trans fr1 fr2 fr3 n1 n2 :
  driver_step fr1 fr2 n1 -> driver_step fr2 fr3 n2 -> driver_step fr1 fr3 (n1 + n2).
Proof.
  intros (Hs1 & Ha1 & He1 & out1 & Ho1 & Hn1) (Hs2 & Ha2 & He2 & out2 & Ho2 & Hn2).
  repeat split; try congruence.
  exists (out1 ++ out2). split.
  - now rewrite Ho2, Ho1, app_assoc.
  - now rewrite error_lines_app, Hn1, Hn2.
Qed.

Lemma scalars_convertible_step fr fr' n :
  driver_step fr fr' n -> scalars_convertible fr' = scalars_convertible fr.
Proof. intros (Hs & _). unfold scalars_convertible. now rewrite Hs. Qed.

(** Sequencing two parts of the driver. *)
Lemma bind_driver_step {A B} (m : M frame A) (k : A -> M frame B) fr n1 n2 :
  (exists a fr1, m fr = Returns a fr1 /\ driver_step fr fr1 n1) ->
  (forall a fr1, driver_step fr fr1 n1 ->
     exists b fr2, k a fr1 = Returns b fr2 /\ driver_step fr1 fr2 n2) ->
  exists b fr2, (x <- m ;; k x) fr = Returns b fr2 /\ driver_step fr fr2 (n1 + n2).
Proof.
  intros (a & fr1 & Hm & H1) Hk.
  destruct (Hk a fr1 H1) as (b & fr2 & Hk' & H2).
  exists b, fr2. split.
  - unfold bind. now rewrite Hm.
  - now apply driver_step_trans with fr1.
Qed.

(** The handlers as updates of the visitor. *)

Lemma SumVisitor_ProcessSingleElement_spec e v :
  SumVisitor_ProcessSingleElement e v
  = if convertible (SingleElement_GetValue e)
    then Returns tt
           {| SumVisitor_value :=
                dadd (SumVisitor_value v)
                  (double_of_int
                     (match int_of_double (SingleElement_GetValue e) with
                      | Some z => z
                      | None => 0
                      end)) |}
    else Undefined.
Proof.
  unfold convertible. run_handler.
  now destruct (int_of_double (SingleElement_value e)).
Qed.

Lemma MultiplyVisitor_ProcessSingleElement_spec e v :
  MultiplyVisitor_ProcessSingleElement e v
  = if convertible (SingleElement_GetValue e)
    then Returns tt
           {| MultiplyVisitor_value :=
                dmul (MultiplyVisitor_value v)
                  (double_of_int
                     (match int_of_double (SingleElement_GetValue e) with
                      | Some z => z
                      | None => 0
                      end)) |}
    else Undefined.
Proof.
  unfold convertible. run_handler.
  now destruct (int_of_double (SingleElement_value e)).
Qed.

Lemma forallb_true {A} (l : list A) : forallb (fun _ => true) l = true.
Proof. induction l; cbn; auto. Qed.

(** The blocks of the scalar batch. *)

Lemma single_sum_block_step fr :
  if scalars_convertible fr
  then exists fr', single_sum_block fr = Returns tt fr' /\ driver_step fr fr' 0
  else single_sum_block fr = Undefined.
Proof.
  destruct fr as [sl al se sv mv xv out].
  unfold scalars_convertible, single_sum_block, visit_list, try_catch, on.
  cbn [load store both ref_single_element_list ref_sum_visitor single_element_list
       sum_visitor fst snd].
  change (for_each ForEachAdapter (sl, sv))
    with (for_each (with_const_ref SumVisitor_ProcessSingleElement) (sl, sv)).
  rewrite (for_each_handler _ _ _ SumVisitor_ProcessSingleElement_spec).
  destruct (forallb _ sl); [ | reflexivity].
  eexists. split; [reflexivity | ].
  repeat split. exists []. cbn [cout]. split; [now rewrite app_nil_r | reflexivity].
Qed.

Lemma single_multiply_block_step fr :
  scalars_convertible fr = true ->
  exists fr', single_multiply_block fr = Returns tt fr' /\ driver_step fr fr' 0.
Proof.
  destruct fr as [sl al se sv mv xv out].
  unfold scalars_convertible, single_multiply_block, visit_list, try_catch, on.
  cbn [load store both ref_single_element_list ref_multiply_visitor single_element_list
       multiply_visitor fst snd].
  change (for_each ForEachAdapter (sl, mv))
    with (for_each (with_const_ref MultiplyVisitor_ProcessSingleElement) (sl, mv)).
  rewrite (for_each_handler _ _ _ MultiplyVisitor_ProcessSingleElement_spec).
  intros ->.
  eexists. split; [reflexivity | ].
  repeat split. exists []. cbn [cout]. split; [now rewrite app_nil_r | reflexivity].
Qed.

Lemma single_xor_block_step fr :
  exists fr', single_xor_block fr = Returns tt fr'
              /\ driver_step fr fr' (batch_errors (single_element_list fr)).
Proof.
  destruct fr as [sl al se sv mv xv out]. cbn [single_element_list].
  destruct sl as [ | e rest]; (eexists; split; [reflexivity | ]).
  - apply driver_step_refl.
  - repeat split. eexists. cbn [cout store ref_cout]. split; reflexivity.
Qed.

(** The blocks of the sequence batch: the handlers of the sum and product
    visitors return on every sequence. *)

Lemma array_sum_block_step fr :
  exists fr', array_sum_block fr = Returns tt fr' /\ driver_step fr fr' 0.
Proof.
  destruct fr as [sl al se sv mv xv out].
  unfold array_sum_block, visit_list, try_catch, on.
  cbn [load store both ref_array_element_list ref_sum_visitor array_element_list
       sum_visitor fst snd].
  change (for_each ForEachAdapter (al, sv))
    with (for_each (with_const_ref SumVisitor_ProcessArrayElement) (al, sv)).
  rewrite (for_each_handler SumVisitor_ProcessArrayElement (fun _ => true)
             (fun e v => {| SumVisitor_value :=
                              dadd (SumVisitor_value v)
                                (accumulate (ArrayElement_GetValue e) (double_of_int 0) dadd) |}))
    by reflexivity.
  rewrite forallb_true.
  eexists. split; [reflexivity | ].
  repeat split. exists []. cbn [cout]. split; [now rewrite app_nil_r | reflexivity].
Qed.

Lemma array_multiply_block_step fr :
  exists fr', array_multiply_block fr = Returns tt fr' /\ driver_step fr fr' 0.
Proof.
  destruct fr as [sl al se sv mv xv out].
  unfold array_multiply_block, visit_list, try_catch, on.
  cbn [load store both ref_array_element_list ref_multiply_visitor array_element_list
       multiply_visitor fst snd].
  change (for_each ForEachAdapter (al, mv))
    with (for_each (with_const_ref MultiplyVisitor_ProcessArrayElement) (al, mv)).
  rewrite (for_each_handler MultiplyVisitor_ProcessArrayElement (fun _ => true)
             (fun e v => {| MultiplyVisitor_value :=
                              dmul (MultiplyVisitor_value v)
                                (accumulate (ArrayElement_GetValue e) (double_of_int 1)
                                   MultiplyVisitor_lambda) |}))
    by reflexivity.
  rewrite forallb_true.
  eexists. split; [reflexivity | ].
  repeat split. exists []. cbn [cout]. split; [now rewrite app_nil_r | reflexivity].
Qed.

Lemma array_xor_block_step fr :
  exists fr', array_xor_block fr = Returns tt fr'
              /\ driver_step fr fr' (batch_errors (array_element_list fr)).
Proof.
  destruct fr as [sl al se sv mv xv out]. cbn [array_element_list].
  destruct al as [ | e rest]; (eexists; split; [reflexivity | ]).
  - apply driver_step_refl.
  - repeat split. eexists. cbn [cout store ref_cout]. split; reflexivity.
Qed.

(** The text element: all three visitors return on it. *)
Lemma visit_string_step {V} `{AbstractVisitor V} (rv : ref V) fr :
  (forall v fr0, cout (store rv v fr0) = cout fr0
                 /\ single_element_list (store rv v fr0) = single_element_list fr0
                 /\ array_element_list (store rv v fr0) = array_element_list fr0
                 /\ string_element (store rv v fr0) = string_element fr0) ->
  (forall e v, exists v', ProcessStringElement e v = Returns tt v') ->
  exists fr', visit_one ref_string_element rv fr = Returns tt fr' /\ driver_step fr fr' 0.
Proof.
  intros Hrv Hh.
  unfold visit_one, try_catch, on.
  cbn [Accept StringElement_is_element]. unfold StringElement_Accept, with_const_ref.
  cbn [load both fst snd].
  destruct (Hh (load ref_string_element fr) (load rv fr)) as [v' ->].
  eexists. split; [reflexivity | ].
  cbn [store both fst snd].
  destruct (Hrv v' (store ref_string_element (load ref_string_element fr) fr))
    as (Hc & Hs & Ha & He).
  destruct fr as [sl al se sv mv xv out].
  cbn [store load ref_string_element single_element_list array_element_list
       string_element cout] in *.
  repeat split; try assumption.
  exists []. split; [now rewrite app_nil_r | reflexivity].
Qed.

Lemma print_results_step batch fr :
  exists fr', print_results batch fr = Returns tt fr' /\ driver_step fr fr' 0.
Proof.
  destruct fr as [sl al se sv mv xv out].
  eexists. split; [reflexivity | ].
  cbn. repeat split. eexists. split.
  - rewrite <- !app_assoc. reflexivity.
  - reflexivity.
Qed.

Lemma reset_all_step fr :
  exists fr', reset_all fr = Returns tt fr' /\ driver_step fr fr' 0 /\ visitors_reset fr'.
Proof.
  destruct fr as [sl al se sv mv xv out].
  eexists. split; [reflexivity | ].
  split; [ | repeat split].
  repeat split. exists []. cbn. split; [now rewrite app_nil_r | reflexivity].
Qed.

Lemma driver_step_elements fr fr' n :
  driver_step fr fr' n ->
  single_element_list fr' = single_element_list fr
  /\ array_element_list fr' = array_element_list fr.
Proof. intros (Hs & Ha & _). now split. Qed.

Lemma process_single_element_list_step fr :
  scalars_convertible fr = true ->
  exists fr', process_single_element_list fr = Returns tt fr'
              /\ driver_step fr fr' (batch_errors (single_element_list fr))
              /\ visitors_reset fr'.
Proof.
  intro Hc.
  pose proof (single_sum_block_step fr) as H1. rewrite Hc in H1.
  destruct H1 as (fr1 & H1 & S1).
  destruct (single_multiply_block_step fr1) as (fr2 & H2 & S2);
    [now rewrite (scalars_convertible_step _ _ _ S1) | ].
  destruct (single_xor_block_step fr2) as (fr3 & H3 & S3).
  destruct (print_results_step "SingleElement list" fr3) as (fr4 & H4 & S4).
  destruct (reset_all_step fr4) as (fr5 & H5 & S5 & Hr).
  exists fr5. split; [ | split; [ | exact Hr]].
  - unfold process_single_element_list, bind. now rewrite H1, H2, H3, H4.
  - pose proof (driver_step_trans _ _ _ _ _ S1 S2) as S12.
    destruct (driver_step_elements _ _ _ S12) as [Hl _]. rewrite Hl in S3.
    pose proof (driver_step_trans _ _ _ _ _ S12 S3) as S13.
    pose proof (driver_step_trans _ _ _ _ _ S13 S4) as S14.
    pose proof (driver_step_trans _ _ _ _ _ S14 S5) as S15.
    cbn [Nat.add] in S15. now rewrite !Nat.add_0_r in S15.
Qed.

Lemma process_array_element_list_step fr :
  exists fr', process_array_element_list fr = Returns tt fr'
              /\ driver_step fr fr' (batch_errors (array_element_list fr))
              /\ visitors_reset fr'.
Proof.
  destruct (array_sum_block_step fr) as (fr1 & H1 & S1).
  destruct (array_multiply_block_step fr1) as (fr2 & H2 & S2).
  destruct (array_xor_block_step fr2) as (fr3 & H3 & S3).
  destruct (print_results_step "ArrayElement list" fr3) as (fr4 & H4 & S4).
  destruct (reset_all_step fr4) as (fr5 & H5 & S5 & Hr).
  exists fr5. split; [ | split; [ | exact Hr]].
  - unfold process_array_element_list, bind. now rewrite H1, H2, H3, H4.
  - pose proof (driver_step_trans _ _ _ _ _ S1 S2) as S12.
    destruct (driver_step_elements _ _ _ S12) as [_ Hl]. rewrite Hl in S3.
    pose proof (driver_step_trans _ _ _ _ _ S12 S3) as S13.
    pose proof (driver_step_trans _ _ _ _ _ S13 S4) as S14.
    pose proof (driver_step_trans _ _ _ _ _ S14 S5) as S15.
    cbn [Nat.add] in S15. now rewrite !Nat.add_0_r in S15.
Qed.

Lemma ref_visitor_frame :
  (forall (v : SumVisitor) fr0,
     cout (store ref_sum_visitor v fr0) = cout fr0
     /\ single_element_list (store ref_sum_visitor v fr0) = single_element_list fr0
     /\ array_element_list (store ref_sum_visitor v fr0) = array_element_list fr0
     /\ string_element (store ref_sum_visitor v fr0) = string_element fr0)
  /\
  (forall (v : MultiplyVisitor) fr0,
     cout (store ref_multiply_visitor v fr0) = cout fr0
     /\ single_element_list (store ref_multiply_visitor v fr0) = single_element_list fr0
     /\ array_element_list (store ref_multiply_visitor v fr0) = array_element_list fr0
     /\ string_element (store ref_multiply_visitor v fr0) = string_element fr0)
  /\
  (forall (v : XORVisitor) fr0,
     cout (store ref_xor_visitor v fr0) = cout fr0
     /\ single_element_list (store ref_xor_visitor v fr0) = single_element_list fr0
     /\ array_element_list (store ref_xor_visitor v fr0) = array_element_list fr0
     /\ string_element (store ref_xor_visitor v fr0) = string_element fr0).
Proof. repeat split. Qed.

Lemma process_string_element_step fr :
  exists fr', process_string_element fr = Returns tt fr'
              /\ driver_step fr fr' 0
              /\ visitors_reset fr'.
Proof.
  destruct ref_visitor_frame as (Fs & Fm & Fx).
  destruct (visit_string_step ref_sum_visitor fr Fs) as (fr1 & H1 & S1);
    [intros e v; eexists; reflexivity | ].
  destruct (visit_string_step ref_multiply_visitor fr1 Fm) as (fr2 & H2 & S2);
    [intros e v; eexists; reflexivity | ].
  destruct (visit_string_step ref_xor_visitor fr2 Fx) as (fr3 & H3 & S3);
    [intros e v; eexists; reflexivity | ].
  destruct (print_results_step "StringElement" fr3) as (fr4 & H4 & S4).
  destruct (reset_all_step fr4) as (fr5 & H5 & S5 & Hr).
  exists fr5. split; [ | split; [ | exact Hr]].
  - unfold process_string_element, bind. now rewrite H1, H2, H3, H4.
  - pose proof (driver_step_trans _ _ _ _ _ S1 S2) as S12.
    pose proof (driver_step_trans _ _ _ _ _ S12 S3) as S13.
    pose proof (driver_step_trans _ _ _ _ _ S13 S4) as S14.
    exact (driver_step_trans _ _ _ _ _ S14 S5).
Qed.

Lemma main_body_returns fr :
  scalars_convertible fr = true ->
  exists fr', main_body fr = Returns 0 fr'
              /\ driver_step fr fr'
                   (batch_errors (single_element_list fr)
                    + batch_errors (array_element_list fr))
              /\ visitors_reset fr'.
Proof.
  intro Hc.
  destruct (process_single_element_list_step fr Hc) as (fr1 & H1 & S1 & _).
  destruct (process_array_element_list_step fr1) as (fr2 & H2 & S2 & _).
  destruct (process_string_element_step fr2) as (fr3 & H3 & S3 & Hr).
  exists fr3. split; [ | split; [ | exact Hr]].
  - unfold main_body, bind, ret. now rewrite H1, H2, H3.
  - destruct (driver_step_elements _ _ _ S1) as [_ Hl]. rewrite Hl in S2.
    pose proof (driver_step_trans _ _ _ _ _ S1 S2) as S12.
    pose proof (driver_step_trans _ _ _ _ _ S12 S3) as S13.
    now rewrite Nat.add_0_r in S13.
Qed.

Lemma main_body_undefined fr :
  scalars_convertible fr = false -> main_body fr = Undefined.
Proof.
  intro Hc.
  pose proof (single_sum_block_step fr) as H1. rewrite Hc in H1.
  unfold main_body, process_single_element_list, bind. now rewrite H1.
Qed.

(** X14: on any data whose scalars can be converted to [int], the driver
    runs to the end and returns 0; it leaves every element as it was and
    all three visitors reset, only adds to the output, and prints one
    error line for each of the scalar and sequence batches that is not
    empty (whatever its length) and none for the text element. *)
Theorem driver_on_any_data (fr : frame) :
  scalars_convertible fr = true ->
  exists fr' out,
    main_body fr = Returns 0 fr'
    /\ single_element_list fr' = single_element_list fr
    /\ array_element_list fr' = array_element_list fr
    /\ string_element fr' = string_element fr
    /\ sum_visitor fr' = SumVisitor_new
    /\ multiply_visitor fr' = MultiplyVisitor_new
    /\ xor_visitor fr' = XORVisitor_new
    /\ cout fr' = cout fr ++ out
    /\ error_lines out
       = (batch_errors (single_element_list fr) + batch_errors (array_element_list fr))%nat.
Proof.
  intro Hc.
  destruct (main_body_returns fr Hc)
    as (fr' & Hrun & (Hs & Ha & He & out & Ho & Hn) & (Rs & Rm & Rx)).
  exists fr', out. repeat split; assumption.
Qed.

Lemma driver_on_any_data_witness :
  exists fr' out,
    main_body (locals []) = Returns 0 fr'
    /\ single_element_list fr' = single_element_list (locals [])
    /\ array_element_list fr' = array_element_list (locals [])
    /\ string_element fr' = string_element (locals [])
    /\ sum_visitor fr' = SumVisitor_new
    /\ multiply_visitor fr' = MultiplyVisitor_new
    /\ xor_visitor fr' = XORVisitor_new
    /\ cout fr' = [] ++ out
    /\ error_lines out = 2%nat.
Proof.
  exact (driver_on_any_data (locals []) eq_refl).
Defined.

(** X15: the driver never lets an exception out, whatever the data, and
    its behaviour is undefined exactly when some scalar element holds a
    value the conversion to [int] is not defined on. *)
Theorem driver_undefined_or_returns (fr : frame) :
  (forall e fr', main_body fr <> Throws e fr')
  /\ (main_body fr = Undefined <-> scalars_convertible fr = false).
Proof.
  destruct (scalars_convertible fr) eqn:Hc.
  - destruct (main_body_returns fr Hc) as (fr' & Hrun & _).
    rewrite Hrun. split; [intros; discriminate | split; discriminate].
  - rewrite (main_body_undefined fr Hc). split; [intros; discriminate | tauto].
Qed.

(** X16: the XOR block of a batch prints its error line once when the
    batch has at least one element, however many it has, and prints
    nothing when the batch is empty; in both cases it returns and changes
    nothing else, the XOR accumulator included.  This holds for the scalar
    batch and for the sequence batch. *)
Theorem xor_blocks_any_batch (fr : frame) :
  single_xor_block fr
  = Returns tt
      match single_element_list fr with
      | [] => fr
      | _ :: _ =>
          store ref_cout
            (cout fr
               ++ [OutString "Error: Cannot apply XOR operation to SingleElement type";
                   OutEndl]) fr
      end
  /\
  array_xor_block fr
  = Returns tt
      match array_element_list fr with
      | [] => fr
      | _ :: _ =>
          store ref_cout
            (cout fr
               ++ [OutString "Error: Cannot apply XOR operation to ArrayElement type";
                   OutEndl]) fr
      end.
Proof.
  destruct fr as [sl al se sv mv xv out]. cbn [single_element_list array_element_list].
  split.
  - now destruct sl.
  - now destruct al.
Qed.

(** ** Text elements in a row, for the sum visitor *)

Lemma digit_values_app s1 s2 :
  digit_values (s1 ++ s2) = digit_values s1 ++ digit_values s2.
Proof.
  induction s1 as [ | c s1 IH]; cbn [append digit_values]; [reflexivity | ].
  rewrite IH. now destruct (digit_value c).
Qed.

Lemma SumVisitor_ProcessStringElement_integers s a :
  0 <= a ->
  a + 9 * Z.of_nat (List.length (digit_values s)) < 2 ^ 53 ->
  SumVisitor_ProcessStringElement {| StringElement_value := s |}
    {| SumVisitor_value := double_of_int a |}
  = Returns tt {| SumVisitor_value := double_of_int (a + integer_sum (digit_values s)) |}.
Proof.
  intros Ha Hb. run_handler. rewrite accumulate_SumVisitor_lambda.
  pose proof (digit_values_range s) as Hds.
  pose proof (integer_sum_digits _ Hds) as Hsum.
  rewrite (fold_dadd_integers _ 0); [ | | lia | lia].
  - rewrite Z.add_0_l. now rewrite dadd_int_exact by lia.
  - eapply Forall_impl; [ | exact Hds]. cbv beta. intros; lia.
Qed.

(** X17: for the sum visitor two text elements dispatched one after the
    other count as their concatenation, as long as the accumulator is a
    non-negative integer and the total stays below [2^53]: the accumulator
    grows by the digit sum of both. *)
Theorem sum_text_concatenation (s1 s2 : string) (a : Z) :
  0 <= a ->
  a + 9 * Z.of_nat (List.length (digit_values s1) + List.length (digit_values s2)) < 2 ^ 53 ->
  (SumVisitor_ProcessStringElement {| StringElement_value := s1 |} ;;
   SumVisitor_ProcessStringElement {| StringElement_value := s2 |})
    {| SumVisitor_value := double_of_int a |}
  = SumVisitor_ProcessStringElement {| StringElement_value := (s1 ++ s2)%string |}
      {| SumVisitor_value := double_of_int a |}
  /\
  SumVisitor_ProcessStringElement {| StringElement_value := (s1 ++ s2)%string |}
    {| SumVisitor_value := double_of_int a |}
  = Returns tt
      {| SumVisitor_value :=
           double_of_int (a + integer_sum (digit_values s1) + integer_sum (digit_values s2)) |}.
Proof.
  intros Ha Hb. rewrite Nat2Z.inj_add in Hb.
  pose proof (integer_sum_digits _ (digit_values_range s1)) as H1.
  pose proof (integer_sum_digits _ (digit_values_range s2)) as H2.
  unfold bind.
  rewrite (SumVisitor_ProcessStringElement_integers s1 a) by lia.
  rewrite (SumVisitor_ProcessStringElement_integers s2) by lia.
  rewrite (SumVisitor_ProcessStringElement_integers (s1 ++ s2) a);
    [ | lia | rewrite digit_values_app, length_app, Nat2Z.inj_add; lia].
  rewrite digit_values_app, integer_sum_app, Z.add_assoc. now split.
Qed.

Lemma sum_text_concatenation_witness :
  (SumVisitor_ProcessStringElement {| StringElement_value := "a12" |} ;;
   SumVisitor_ProcessStringElement {| StringElement_value := "3b4" |})
    {| SumVisitor_value := double_of_int 5 |}
  = SumVisitor_ProcessStringElement {| StringElement_value := "a123b4" |}
      {| SumVisitor_value := double_of_int 5 |}
  /\
  SumVisitor_ProcessStringElement {| StringElement_value := "a123b4" |}
    {| SumVisitor_value := double_of_int 5 |}
  = Returns tt {| SumVisitor_value := double_of_int 15 |}.
Proof.
  refine (sum_text_concatenation "a12" "3b4" 5 _ _).
  - lia.
  - vm_compute. reflexivity.
Defined.
